(** * Tic Tac Toe: board model, minimax search and round controller

    A shallow embedding of [src/App.jsx]: the board queries
    ([winnerInfo], [isFull]), the adversarial search ([minimax],
    [bestMove]) and the React component's state with its event handlers
    and effects, followed by the properties the specification states
    about them. *)

From Stdlib Require Import ZArith QArith Qround Lia.
From stdpp Require Import base decidable option list strings.

Local Open Scope Z_scope.

(** ** Data model *)

(** The two symbols a party places on the board: ['X'] and ['O']. *)
Inductive Mark := X | O.

#[global] Instance Mark_eq_dec : EqDecision Mark.
Proof. solve_decision. Defined.

(** A cell of the array is [null] ([None]) or a mark. *)
Abbreviation Cell := (option Mark).

(** The board is a JS array of cells.  Reading [board[i]] is the list
    lookup [board !! i : option Cell]: [None] is JS [undefined] (index out
    of range), [Some None] is [null], [Some (Some m)] is a mark. *)
Abbreviation Board := (list Cell).

(** [const LINES]: the eight index triples, rows, columns, diagonals. *)
Definition LINES : list (nat * nat * nat) :=
  [ (0, 1, 2); (3, 4, 5); (6, 7, 8);
    (0, 3, 6); (1, 4, 7); (2, 5, 8);
    (0, 4, 8); (2, 4, 6) ]%nat.

(** [emptyBoard = () => Array(9).fill(null)]. *)
Definition emptyBoard : Board := replicate 9 None.

(** The object [{ symbol, line }] that [winnerInfo] returns. *)
Record WinInfo := mkWin { symbol : Mark; line : list nat }.

#[global] Instance WinInfo_eq_dec : EqDecision WinInfo.
Proof. solve_decision. Defined.

(** ** Board queries *)

(** The test of one loop iteration of [winnerInfo]:
    [board[a] && board[a] === board[b] && board[a] === board[c]].
    Only a mark is truthy; [===] compares the JS values read. *)
Definition line_hit (board : Board) (l : nat * nat * nat) : option WinInfo :=
  let '(a, b, c) := l in
  match board !! a with
  | Some (Some m) =>
      if bool_decide (board !! a = board !! b) && bool_decide (board !! a = board !! c)
      then Some (mkWin m [a; b; c])
      else None
  | _ => None
  end.

(** [for (const [a, b, c] of LINES) { if (...) return {...} } return null] *)
Fixpoint scan (board : Board) (ls : list (nat * nat * nat)) : option WinInfo :=
  match ls with
  | [] => None
  | l :: ls' =>
      match line_hit board l with
      | Some w => Some w
      | None => scan board ls'
      end
  end.

Definition winnerInfo (board : Board) : option WinInfo := scan board LINES.

(** [isFull = (board) => board.every((cell) => cell !== null)] *)
Definition isFull (board : Board) : bool :=
  forallb (fun cell => bool_decide (cell ≠ None)) board.

(** ** Scores *)

(** The numbers the search handles: integers and the two infinities that
    initialise [best]. *)
Inductive num := NegInf | Fin (z : Z) | PosInf.

#[global] Instance num_eq_dec : EqDecision num.
Proof. solve_decision. Defined.

(** [a <= b] on JS numbers. *)
Definition num_leb (a b : num) : bool :=
  match a, b with
  | NegInf, _ => true
  | _, PosInf => true
  | Fin x, Fin y => x <=? y
  | _, _ => false
  end.

(** [a > b] *)
Definition num_gtb (a b : num) : bool := negb (num_leb a b).

(** [Math.max(a, b)] and [Math.min(a, b)]. *)
Definition num_max (a b : num) : num := if num_leb a b then b else a.
Definition num_min (a b : num) : num := if num_leb a b then a else b.

(** ** The search *)

(** The search writes into the array it is given, so every function
    threads the array: a call returns its value together with the array
    as the call leaves it.  Recursion is bounded by [fuel]; [None] means
    the bound was reached. *)

(** [for (let i = 0; i < board.length; i += 1) body], as a fold over the
    indices; [body] may fail (fuel) and carries the loop state. *)
Fixpoint for_each {S : Type} (body : nat → S → option S) (idx : list nat) (s : S)
  : option S :=
  match idx with
  | [] => Some s
  | i :: idx' =>
      match body i s with
      | Some s' => for_each body idx' s'
      | None => None
      end
  end.

(** One iteration of either loop of [minimax]:
    [if (board[i] === null) { board[i] = mark; best = combine(best, rec(board)); board[i] = null }] *)
Definition try_cell (rec : Board → option (num * Board)) (mark : Mark)
    (combine : num → num → num) (i : nat) (s : num * Board) : option (num * Board) :=
  let '(best, board) := s in
  match board !! i with
  | Some None =>
      match rec (<[i := Some mark]> board) with
      | Some (v, board') => Some (combine best v, <[i := None]> board')
      | None => None
      end
  | _ => Some (best, board)
  end.

Fixpoint minimax_fuel (fuel : nat) (board : Board) (depth : Z) (isMax : bool)
    (ai human : Mark) {struct fuel} : option (num * Board) :=
  match fuel with
  | 0%nat => None
  | S fuel' =>
      match winnerInfo board with
      | Some w =>
          if bool_decide (symbol w = ai)
          then Some (Fin (10 - depth), board)
          else Some (Fin (depth - 10), board)
      | None =>
          if isFull board then Some (Fin 0, board)
          else if isMax then
            for_each
              (try_cell (fun b => minimax_fuel fuel' b (depth + 1) false ai human) ai num_max)
              (seq 0 (length board)) (NegInf, board)
          else
            for_each
              (try_cell (fun b => minimax_fuel fuel' b (depth + 1) true ai human) human num_min)
              (seq 0 (length board)) (PosInf, board)
      end
  end.

(** Every recursive call fills one cell, so the array length bounds the
    recursion depth. *)
Definition minimax (board : Board) (depth : Z) (isMax : bool) (ai human : Mark)
  : option (num * Board) :=
  minimax_fuel (S (length board)) board depth isMax ai human.

(** The loop state of [bestMove]: [best], [moves] and the array. *)
Record Root := mkRoot { r_best : num; r_moves : list nat; r_board : Board }.

(** One iteration of the loop of [bestMove]. *)
Definition root_cell (ai human : Mark) (i : nat) (s : Root) : option Root :=
  match r_board s !! i with
  | Some None =>
      match minimax (<[i := Some ai]> (r_board s)) 0 false ai human with
      | Some (score, board') =>
          let board'' := <[i := None]> board' in
          if num_gtb score (r_best s) then Some (mkRoot score [i] board'')
          else if bool_decide (score = r_best s)
               then Some (mkRoot (r_best s) (r_moves s ++ [i]) board'')
               else Some (mkRoot (r_best s) (r_moves s) board'')
      | None => None
      end
  | _ => Some s
  end.

(** The loop of [bestMove], from [best = -Infinity] and [moves = []]. *)
Definition root_loop (board : Board) (ai human : Mark) : option Root :=
  for_each (root_cell ai human) (seq 0 (length board)) (mkRoot NegInf [] board).

(** What [bestMove] returns: [null], a cell index, or [undefined] (an
    array read outside [moves]). *)
Inductive Move := MNull | MIndex (i : nat) | MUndefined.

(** [moves[Math.floor(rnd * moves.length)]], where [rnd] is the value
    [Math.random()] produced. *)
Definition pick (rnd : Q) (moves : list nat) : Move :=
  let k := Qfloor (rnd * inject_Z (Z.of_nat (length moves))) in
  if k <? 0 then MUndefined
  else match moves !! Z.to_nat k with
       | Some i => MIndex i
       | None => MUndefined
       end.

(** [bestMove(board, ai, human)] with the random draw [rnd] made explicit;
    returns the move and the array as the call leaves it. *)
Definition bestMove (rnd : Q) (board : Board) (ai human : Mark)
  : option (Move * Board) :=
  match root_loop board ai human with
  | Some s =>
      match r_moves s with
      | [] => Some (MNull, r_board s)
      | _ => Some (pick rnd (r_moves s), r_board s)
      end
  | None => None
  end.

(** ** The round controller: the state of the [App] component *)

(** [result]: ['human' | 'ai' | 'draw']; [null] is [None]. *)
Inductive Result := RHuman | RAi | RDraw.

#[global] Instance Result_eq_dec : EqDecision Result.
Proof. solve_decision. Defined.

(** [score]: [{ wins, losses, draws }]. *)
Record Score := mkScore { wins : Z; losses : Z; draws : Z }.

Module App.

(** The [useState] cells that the game logic reads or writes, and the
    ref [scoredRef].  ([theme] only selects texts and styles and is in no
    dependency list of the effects below.) *)
Record State := mkState {
  board : Board;
  human : Mark;
  turn : Mark;
  result : option Result;
  winLine : list nat;
  score : Score;
  soundOn : bool;
  scoredRef : option Result
}.

(** The state of the first render. *)
Definition init : State :=
  mkState emptyBoard X X None [] (mkScore 0 0 0) true None.

(** [const ai = useMemo(() => (human === 'X' ? 'O' : 'X'), [human])] *)
Definition ai_of (h : Mark) : Mark := if bool_decide (h = X) then O else X.
Definition ai (s : State) : Mark := ai_of (human s).

(** What an event handler leaves for the next render: the state after
    its setters, whether [setBoard] was given a new array (the arrays are
    compared by identity in dependency lists) and whether [beep] is a new
    function ([useCallback] on [soundOn]). *)
Record Update := mkUpdate { next : State; board_set : bool; beep_new : bool }.

Definition no_update (s : State) : Update := mkUpdate s false false.

(** The five setters of [restartRound], also the tail of [chooseSymbol]. *)
Definition reset (h : Mark) (s : State) : State :=
  mkState emptyBoard h X None [] (score s) (soundOn s) None.

Definition restartRound (s : State) : Update :=
  mkUpdate (reset (human s) s) true false.

Definition chooseSymbol (nxt : Mark) (s : State) : Update :=
  if bool_decide (nxt = human s) then no_update s
  else mkUpdate (reset nxt s) true false.

Definition clickCell (idx : nat) (s : State) : Update :=
  if bool_decide (result s ≠ None) then no_update s
  else if bool_decide (turn s ≠ human s) then no_update s
  else if bool_decide (board s !! idx ≠ Some None) then no_update s
  else mkUpdate
         (mkState (<[idx := Some (human s)]> (board s)) (human s) (ai s) (result s)
                  (winLine s) (score s) (soundOn s) (scoredRef s))
         true false.

(** [onClick={() => setSoundOn((v) => !v)}] *)
Definition toggleSound (s : State) : Update :=
  mkUpdate
    (mkState (board s) (human s) (turn s) (result s) (winLine s) (score s)
             (negb (soundOn s)) (scoredRef s))
    false true.

(** The callback of the timer that the "AI move" effect sets.  The effect
    sets it only when [result] is null and [turn === ai], and its cleanup
    clears it whenever one of the values it closed over changes; so a
    timer that fires sees the current state.  [bestMove] works on the
    copy [[...board]]; the array it leaves is dropped.  A result that is
    not a number ([null], [undefined]) sets nothing. *)
Definition aiTimer (rnd : Q) (s : State) : Update :=
  if bool_decide (result s ≠ None) then no_update s
  else if bool_decide (turn s ≠ ai s) then no_update s
  else match bestMove rnd (board s) (ai s) (human s) with
       | Some (MIndex move, _) =>
           match board s !! move with
           | Some None =>
               mkUpdate
                 (mkState (<[move := Some (ai s)]> (board s)) (human s) (human s)
                          (result s) (winLine s) (score s) (soundOn s) (scoredRef s))
                 true false
           | _ =>
               mkUpdate
                 (mkState (board s) (human s) (human s) (result s) (winLine s)
                          (score s) (soundOn s) (scoredRef s))
                 false false
           end
       | _ => no_update s
       end.

(** The effect "Derive result whenever board changes": the values it
    passes to [setWinLine] and [setResult]. *)
Definition derive (b : Board) (h : Mark) : list nat * option Result :=
  match winnerInfo b with
  | Some w => (line w, Some (if bool_decide (symbol w = h) then RHuman else RAi))
  | None => if isFull b then ([], Some RDraw) else ([], None)
  end.

(** The updater given to [setScore]. *)
Definition tally (r : Result) (prev : Score) : Score :=
  match r with
  | RHuman => mkScore (wins prev + 1) (losses prev) (draws prev)
  | RAi => mkScore (wins prev) (losses prev + 1) (draws prev)
  | RDraw => mkScore (wins prev) (losses prev) (draws prev + 1)
  end.

(** One commit: the effects of the render of [cur] that run because a
    dependency differs from the previous render [prev].  The derive
    effect depends on [[board, human]], the score effect on
    [[beep, result]]; both read the values of the render [cur].  The
    "AI move" effect only sets and clears the timer. *)
Definition commit (prev cur : State) (new_board new_beep : bool) : State :=
  let run_derive := new_board || bool_decide (human cur ≠ human prev) in
  let run_score := new_beep || bool_decide (result cur ≠ result prev) in
  let '(wl, res) :=
    if run_derive then derive (board cur) (human cur) else (winLine cur, result cur) in
  let '(sc, ref) :=
    if run_score then
      match result cur with
      | None => (score cur, scoredRef cur)
      | Some r =>
          if bool_decide (scoredRef cur = Some r) then (score cur, scoredRef cur)
          else (tally r (score cur), Some r)
      end
    else (score cur, scoredRef cur) in
  mkState (board cur) (human cur) (turn cur) res wl sc (soundOn cur) ref.

(** Renders follow each other until no effect sets anything: the second
    commit sees the [result] the first one derived, and leaves nothing
    for a third (lemma [settle_quiescent]). *)
Definition settle (prev : State) (u : Update) : State :=
  let s1 := commit prev (next u) (board_set u) (beep_new u) in
  commit (next u) s1 false false.

(** What can happen to the component. *)
Inductive Event :=
| Click (idx : nat)
| Restart
| Choose (m : Mark)
| ToggleSound
| AiTimer (rnd : Q).

Definition handle (e : Event) (s : State) : Update :=
  match e with
  | Click idx => clickCell idx s
  | Restart => restartRound s
  | Choose m => chooseSymbol m s
  | ToggleSound => toggleSound s
  | AiTimer rnd => aiTimer rnd s
  end.

Definition step (e : Event) (s : State) : State := settle s (handle e s).

Definition run (evs : list Event) (s : State) : State :=
  fold_left (fun s e => step e s) evs s.

(** The controller's phase, as the component reads it off its state
    ([result], then [turn === human]). *)
Inductive Phase := AwaitingHuman | AwaitingComputer | RoundOver (r : Result).

Definition phase (s : State) : Phase :=
  match result s with
  | Some r => RoundOver r
  | None => if bool_decide (turn s = human s) then AwaitingHuman else AwaitingComputer
  end.

End App.

Import App.

(** * Vocabulary of the properties *)

(** All three cells of line [l] hold the mark [m]. *)
Definition uniform (board : Board) (l : nat * nat * nat) (m : Mark) : Prop :=
  let '(a, b, c) := l in
  board !! a = Some (Some m) ∧ board !! b = Some (Some m) ∧ board !! c = Some (Some m).

(** The array [[a, b, c]] of a line. *)
Definition line_cells (l : nat * nat * nat) : list nat :=
  let '(a, b, c) := l in [a; b; c].

(** The mark [m] has a completed line on the board. *)
Definition completes (board : Board) (m : Mark) : Prop :=
  ∃ l, l ∈ LINES ∧ uniform board l m.

(** The lines of the row-major 3 x 3 grid: row [r] starts at [3 * r],
    column [c] at [c]. *)
Definition rows : list (nat * nat * nat) :=
  map (fun r => (3 * r, 3 * r + 1, 3 * r + 2)%nat) [0; 1; 2]%nat.

Definition columns : list (nat * nat * nat) :=
  map (fun c => (c, c + 3, c + 6)%nat) [0; 1; 2]%nat.

Definition diagonals : list (nat * nat * nat) := [(0, 4, 8); (2, 4, 6)]%nat.

(** The number of [null] cells, which every recursive call lowers. *)
Fixpoint count_null (board : Board) : nat :=
  match board with
  | [] => 0
  | None :: b => S (count_null b)
  | Some _ :: b => count_null b
  end.

(** The value of a call that returned. *)
Definition val (r : option (num * Board)) : num :=
  match r with Some (v, _) => v | None => NegInf end.

(** The value a loop of [minimax] computes, given the value [f i] of the
    recursive call for each null cell [i]. *)
Definition fold_cells (f : nat → num) (combine : num → num → num)
    (board : Board) (idx : list nat) (best : num) : num :=
  fold_left
    (fun acc i => match board !! i with Some None => combine acc (f i) | _ => acc end)
    idx best.

(** The number is an integer, not an infinity. *)
Definition is_fin (v : num) : Prop := ∃ z, v = Fin z.

(** The minimax score of placing [ai] at cell [i], as [bestMove]
    computes it. *)
Definition score_at (board : Board) (ai human : Mark) (i : nat) : num :=
  val (minimax (<[i := Some ai]> board) 0 false ai human).

(** What the loop of [bestMove] keeps true once it has gone through the
    indices [seen]: the array is as received, [moves] holds exactly the
    null cells seen whose score is [best], and no null cell seen scores
    more. *)
Definition root_inv (board : Board) (ai human : Mark) (seen : list nat) (s : Root)
  : Prop :=
  r_board s = board
  ∧ (∀ j, j ∈ r_moves s →
          j ∈ seen ∧ board !! j = Some None ∧ score_at board ai human j = r_best s)
  ∧ (∀ j, j ∈ seen → board !! j = Some None →
          num_leb (score_at board ai human j) (r_best s) = true)
  ∧ (∀ j, j ∈ seen → board !! j = Some None →
          score_at board ai human j = r_best s → j ∈ r_moves s)
  ∧ (r_moves s = [] →
       r_best s = NegInf ∧ ∀ j, j ∈ seen → board !! j ≠ Some None).

(** The board [X X _ / O O _ / _ _ _] with the computer playing ['O']. *)
Definition two_in_a_row : Board :=
  [Some X; Some X; None; Some O; Some O; None; None; None; None].

(** A decided board that still has null cells: [X X X / O O _ / _ _ _]. *)
Definition decided_board : Board :=
  [Some X; Some X; Some X; Some O; Some O; None; None; None; None].

(** A round has just started: what [restartRound] leaves. *)
Definition round_start (s : State) : Prop :=
  board s = emptyBoard ∧ turn s = X ∧ result s = None
  ∧ winLine s = [] ∧ scoredRef s = None.

(** The events that neither restart the round nor switch sides. *)
Definition in_round (e : Event) : Prop :=
  match e with
  | Restart | Choose _ => False
  | _ => True
  end.

(** [1] when the round's result is [x], else [0]. *)
Definition counted (r : option Result) (x : Result) : Z :=
  if bool_decide (r = Some x) then 1 else 0.

(** The state after the human ['X'] took the centre of the empty board. *)
Definition centre_taken : State := step (Click 4) init.

(** What holds of the score throughout a round that started with the
    score [sc0]: nothing is counted while there is no result, and the
    result is counted once, and remembered in [scoredRef], when there is
    one. *)
Definition tally_inv (sc0 : Score) (s : State) : Prop :=
  match result s with
  | None => score s = sc0 ∧ scoredRef s = None
  | Some r => score s = tally r sc0 ∧ scoredRef s = Some r
  end.

(** The state in which a move (of either party) settles: the derive
    effect computes the result of the new board, and the score effect
    counts it unless [scoredRef] already holds it. *)
Definition after_move (s : State) (b' : Board) (t' : Mark) : State :=
  let '(wl, res) := derive b' (human s) in
  match res with
  | None => mkState b' (human s) t' None wl (score s) (soundOn s) (scoredRef s)
  | Some r =>
      if bool_decide (scoredRef s = Some r)
      then mkState b' (human s) t' (Some r) wl (score s) (soundOn s) (scoredRef s)
      else mkState b' (human s) t' (Some r) wl (tally r (score s)) (soundOn s) (Some r)
  end.

(** A round the human loses: ['X'] at 0, 1 and 3 against the first
    entry of [moves] each time; then the sound is toggled twice and a
    cell is clicked. *)
Definition lost_round : list Event :=
  [Click 0; AiTimer 0; Click 1; AiTimer 0; Click 3; AiTimer 0;
   ToggleSound; Click 8; ToggleSound].

(** The human holds ['X'] and moves first.  [Safe true b]: with the
    human to move on [b], no play of the human against any choices of
    [bestMove] ends in a win of the human; [Safe false b]: the same with
    the computer to move. *)
Inductive Safe : bool → Board → Prop :=
| Safe_human b :
    (∀ i, b !! i = Some None → (derive (<[i := Some X]> b) X).2 ≠ Some RHuman) →
    (∀ i, b !! i = Some None → (derive (<[i := Some X]> b) X).2 = None →
          Safe false (<[i := Some X]> b)) →
    Safe true b
| Safe_computer b :
    (∀ rnd i b0, bestMove rnd b O X = Some (MIndex i, b0) →
          (derive (<[i := Some O]> b) X).2 ≠ Some RHuman) →
    (∀ rnd i b0, bestMove rnd b O X = Some (MIndex i, b0) →
          (derive (<[i := Some O]> b) X).2 = None → Safe true (<[i := Some O]> b)) →
    Safe false b.

(** The same, decided by going through every move of the human and every
    entry of [moves] of the computer, at most [n] moves deep. *)
Fixpoint safe (n : nat) (humanToMove : bool) (b : Board) : bool :=
  match n with
  | 0%nat => false
  | S n' =>
      let ok (nxt : bool) (b' : Board) : bool :=
        match (derive b' X).2 with
        | Some RHuman => false
        | Some _ => true
        | None => safe n' nxt b'
        end in
      if humanToMove then
        forallb (fun i => match b !! i with
                          | Some None => ok false (<[i := Some X]> b)
                          | _ => true
                          end) (seq 0 (length b))
      else
        match root_loop b O X with
        | Some s => forallb (fun i => ok true (<[i := Some O]> b)) (r_moves s)
        | None => false
        end
  end.

(** What holds of every state of a round in which the human holds
    ['X']: the result is the one the board shows, it is not a win of the
    human, and while there is none the position is safe. *)
Definition safe_state (s : State) : Prop :=
  human s = X
  ∧ result s = (derive (board s) X).2
  ∧ result s ≠ Some RHuman
  ∧ (result s = None → Safe (bool_decide (turn s = X)) (board s)).

(** The events that leave the human with ['X']. *)
Definition keeps_X (e : Event) : Prop := e ≠ Choose O.

(** * More of the component *)

(** [const disabled = result || turn !== human || cell !== null], the
    attribute of the button of cell [idx] (the render maps over the cells
    of [board]). *)
Definition disabled (s : State) (idx : nat) : bool :=
  bool_decide (result s ≠ None)
  || bool_decide (turn s ≠ human s)
  || bool_decide (board s !! idx ≠ Some None).

(** [const isWinning = winLine.includes(idx)], the highlight of cell [idx]. *)
Definition isWinning (s : State) (idx : nat) : bool :=
  bool_decide (idx ∈ winLine s).

(** The number of cells holding the mark [m]. *)
Fixpoint count_mark (m : Mark) (b : Board) : nat :=
  match b with
  | [] => 0
  | c :: b' => (if bool_decide (c = Some m) then 1 else 0) + count_mark m b'
  end.

(** What every state the component can reach satisfies: nine cells; the
    winning line and the result are those of the board; [scoredRef]
    holds the result; ['X'] has as many marks as ['O'] when it is to move
    and one more otherwise. *)
Definition well_formed (s : State) : Prop :=
  length (board s) = 9%nat
  ∧ (winLine s, result s) = derive (board s) (human s)
  ∧ scoredRef s = result s
  ∧ count_mark X (board s)
    = (count_mark O (board s) + (if bool_decide (turn s = X) then 0 else 1))%nat.

(** The state with the sound switched. *)
Definition with_sound (so : bool) (s : State) : State :=
  mkState (board s) (human s) (turn s) (result s) (winLine s) (score s) so
          (scoredRef s).

(** The board a ply of [minimax] recurses on for the null cell [i]: the
    maximising ply writes [ai], the minimising ply [human]. *)
Definition child (board : Board) (isMax : bool) (ai human : Mark) (i : nat) : Board :=
  <[i := Some (if isMax then ai else human)]> board.

(** [a] is no worse than [b] for the ply: not smaller when maximising,
    not larger when minimising. *)
Definition at_least_as_good (isMax : bool) (a b : Z) : Prop :=
  if isMax then b <= a else a <= b.

(** The human ['X'] threatens the top row: [X X _ / _ O _ / _ _ _]. *)
Definition top_row_threat : Board :=
  [Some X; Some X; None; None; Some O; None; None; None; None].

(** The same as [Safe] with the human holding the mark [h] (the computer
    holds [ai_of h]): with [h] being ['O'] the computer moves first. *)
Inductive SafeFor (h : Mark) : bool → Board → Prop :=
| SafeFor_human b :
    (∀ i, b !! i = Some None → (derive (<[i := Some h]> b) h).2 ≠ Some RHuman) →
    (∀ i, b !! i = Some None → (derive (<[i := Some h]> b) h).2 = None →
          SafeFor h false (<[i := Some h]> b)) →
    SafeFor h true b
| SafeFor_computer b :
    (∀ rnd i b0, bestMove rnd b (ai_of h) h = Some (MIndex i, b0) →
          (derive (<[i := Some (ai_of h)]> b) h).2 ≠ Some RHuman) →
    (∀ rnd i b0, bestMove rnd b (ai_of h) h = Some (MIndex i, b0) →
          (derive (<[i := Some (ai_of h)]> b) h).2 = None →
          SafeFor h true (<[i := Some (ai_of h)]> b)) →
    SafeFor h false b.

(** [SafeFor], decided by going through every move of the human and
    every entry of [moves] of the computer, at most [n] moves deep. *)
Fixpoint safe_for (h : Mark) (n : nat) (humanToMove : bool) (b : Board) : bool :=
  match n with
  | 0%nat => false
  | S n' =>
      let ok (nxt : bool) (b' : Board) : bool :=
        match (derive b' h).2 with
        | Some RHuman => false
        | Some _ => true
        | None => safe_for h n' nxt b'
        end in
      if humanToMove then
        forallb (fun i => match b !! i with
                          | Some None => ok false (<[i := Some h]> b)
                          | _ => true
                          end) (seq 0 (length b))
      else
        match root_loop b (ai_of h) h with
        | Some r => forallb (fun i => ok true (<[i := Some (ai_of h)]> b)) (r_moves r)
        | None => false
        end
  end.

(** What holds of every state of a round in which the human holds [h]. *)
Definition safe_state_for (h : Mark) (s : State) : Prop :=
  human s = h
  ∧ result s = (derive (board s) h).2
  ∧ result s ≠ Some RHuman
  ∧ (result s = None → SafeFor h (bool_decide (turn s = h)) (board s)).

(** The events that leave the human with ['O']. *)
Definition keeps_O (e : Event) : Prop := e ≠ Choose X.

(** ** The status line *)

(** The interpolation [${human}]. *)
Definition mark_text (m : Mark) : string :=
  match m with X => "X" | O => "O" end.

(** [const status = useMemo(...)], for the value [theme] of the theme
    state. *)
Definition status (theme : string) (s : State) : string :=
  match result s with
  | Some RHuman =>
      if String.eqb theme "western" then "You outdrew the outlaw. Victory."
      else if String.eqb theme "disco" then "You owned the dance floor. Victory."
      else "You aligned the stars. Victory."
  | Some RAi =>
      if String.eqb theme "western" then "The outlaw got the drop on you."
      else if String.eqb theme "disco" then "The DJ dropped a beat you couldn’t dodge."
      else "Astro AI controls this sector."
  | Some RDraw =>
      if String.eqb theme "western" then "Standoff at high noon. Draw."
      else if String.eqb theme "disco" then "Same groove, same score. Draw."
      else "Balanced universe. Draw."
  | None =>
      if bool_decide (turn s = human s)
      then "Your move (" +:+ mark_text (human s) +:+ ")."
      else if String.eqb theme "western" then "The outlaw is thinking…"
      else if String.eqb theme "disco" then "The DJ is cueing up a move…"
      else "Astro AI is plotting…"
  end.

(** ** The theme and its persistence *)

(** [const THEMES]: the [id] and the [label] of each theme. *)
Definition THEMES : list (string * string) :=
  [("cosmic", "Cosmic"); ("western", "Western"); ("disco", "Disco")].

(** [window.localStorage] as the component uses it: the item
    ['ttt-theme'], absent or a string; [getItem] and [setItem] throw when
    the storage is [blocked], and the component catches and ignores
    that. *)
Record Storage := mkStorage { blocked : bool; item : option string }.

(** [THEMES.some((t) => t.id === stored)] *)
Definition known_theme (stored : string) : bool :=
  existsb (fun t => String.eqb t.1 stored) THEMES.

(** The first theme effect: the theme it passes to [setTheme], if any
    ([stored && THEMES.some(...)]; the empty string is falsy). *)
Definition load_theme (st : Storage) : option string :=
  if blocked st then None
  else match item st with
       | Some stored =>
           if negb (String.eqb stored "") && known_theme stored
           then Some stored else None
       | None => None
       end.

(** The second theme effect: [setItem('ttt-theme', theme)]. *)
Definition save_theme (theme : string) (st : Storage) : Storage :=
  if blocked st then st else mkStorage false (Some theme).

(** The first render has the theme ['cosmic']; both effects run for it,
    the first reading the storage before the second writes it; when the
    first set another theme, the second runs again for that one. *)
Definition mount_theme (st : Storage) : string * Storage :=
  let st1 := save_theme "cosmic" st in
  match load_theme st with
  | Some stored =>
      if String.eqb stored "cosmic" then ("cosmic", st1)
      else (stored, save_theme stored st1)
  | None => ("cosmic", st1)
  end.

(** A click on a theme button: [setTheme(t.id)], and the second effect
    when the theme changed. *)
Definition select_theme (id : string) (ts : string * Storage) : string * Storage :=
  if String.eqb id ts.1 then ts else (id, save_theme id ts.2).

(** The theme and the storage after a page load and the clicks [ids]. *)
Definition theme_session (st : Storage) (ids : list string) : string * Storage :=
  fold_left (fun ts id => select_theme id ts) ids (mount_theme st).

(** * Properties *)

(** ** The board model *)

Section BoardModel.
Implicit Types (board : Board) (l : nat * nat * nat) (w : WinInfo) (m : Mark).

Lemma line_hit_Some board l w :
  line_hit board l = Some w ↔
  uniform board l (symbol w) ∧ line w = line_cells l.
Proof.
  destruct l as [[a b] c]. unfold line_hit, uniform, line_cells.
  destruct (board !! a) as [[m|]|] eqn:Ha.
  - destruct (bool_decide (Some (Some m) = board !! b)) eqn:Hb;
      destruct (bool_decide (Some (Some m) = board !! c)) eqn:Hc; simpl;
      try apply bool_decide_eq_true in Hb; try apply bool_decide_eq_true in Hc;
      try apply bool_decide_eq_false in Hb; try apply bool_decide_eq_false in Hc.
    + split.
      * intros [= <-]. simpl. auto.
      * intros [(Hm & _ & _) Hl]. destruct w as [m' ln]. simpl in *. congruence.
    + split; [discriminate|]. intros [(Hm & _ & Hc') _]. congruence.
    + split; [discriminate|]. intros [(Hm & Hb' & _) _]. congruence.
    + split; [discriminate|]. intros [(Hm & Hb' & _) _]. congruence.
  - split; [discriminate|]. intros [(Hm & _) _]. discriminate.
  - split; [discriminate|]. intros [(Hm & _) _]. discriminate.
Qed.

Lemma line_hit_None board l :
  line_hit board l = None ↔ ∀ m, ¬ uniform board l m.
Proof.
  split.
  - intros Hn m Hu.
    assert (line_hit board l = Some (mkWin m (line_cells l))) as E
      by (apply line_hit_Some; auto).
    congruence.
  - intros Hn. destruct (line_hit board l) as [w|] eqn:E; [|done].
    apply line_hit_Some in E as [Hu _]. by destruct (Hn _ Hu).
Qed.

(** The scan returns the first line that hits. *)
Lemma scan_Some board ls w :
  scan board ls = Some w →
  ∃ pre l post, ls = pre ++ l :: post ∧ line_hit board l = Some w
                ∧ ∀ l', l' ∈ pre → line_hit board l' = None.
Proof.
  induction ls as [|l ls IH]; simpl; [discriminate|].
  destruct (line_hit board l) as [w'|] eqn:E.
  - intros [= ->]. exists [], l, ls. split_and!; auto.
    intros l' Hl'. by apply elem_of_nil in Hl'.
  - intros Hs. destruct (IH Hs) as (pre & l0 & post & -> & Hh & Hpre).
    exists (l :: pre), l0, post. split_and!; auto.
    intros l' [->|Hl']%elem_of_cons; auto.
Qed.

Lemma scan_None board ls :
  scan board ls = None ↔ ∀ l, l ∈ ls → line_hit board l = None.
Proof.
  induction ls as [|l ls IH]; simpl.
  - split; [|done]. intros _ l Hl. by apply elem_of_nil in Hl.
  - destruct (line_hit board l) as [w'|] eqn:E.
    + split; [discriminate|]. intros H. specialize (H l (list_elem_of_here _ _)).
      congruence.
    + rewrite IH. split.
      * intros H l' [->|Hl']%elem_of_cons; auto.
      * intros H l' Hl'. apply H. by apply list_elem_of_further.
Qed.

Lemma winnerInfo_None board :
  winnerInfo board = None ↔ ∀ m, ¬ completes board m.
Proof.
  unfold winnerInfo. rewrite scan_None. split.
  - intros H m (l & Hl & Hu). specialize (H l Hl).
    rewrite line_hit_None in H. by apply (H m).
  - intros H l Hl. apply line_hit_None. intros m Hu. apply (H m). by exists l.
Qed.

Lemma winnerInfo_Some_completes board w :
  winnerInfo board = Some w → completes board (symbol w).
Proof.
  intros (pre & l & post & E & Hh & _)%scan_Some.
  apply line_hit_Some in Hh as [Hu _]. exists l. split; [|done].
  rewrite E. apply elem_of_app. right. apply list_elem_of_here.
Qed.

Lemma isFull_true board :
  isFull board = true ↔ ∀ i, board !! i ≠ Some None.
Proof.
  unfold isFull. induction board as [|c board IH]; simpl.
  - split; [|done]. intros _ i. by rewrite lookup_nil.
  - rewrite andb_true_iff, IH, bool_decide_eq_true. split.
    + intros [Hc Hr] [|i]; simpl; [congruence|apply Hr].
    + intros H. split.
      * intros ->. by apply (H 0%nat).
      * intros i. apply (H (S i)).
Qed.

Lemma isFull_false board :
  isFull board = false ↔ ∃ i, board !! i = Some None.
Proof.
  split.
  - intros Hf. unfold isFull in Hf.
    induction board as [|c board IH]; simpl in *; [discriminate|].
    apply andb_false_iff in Hf as [Hc|Hr].
    + exists 0%nat. apply bool_decide_eq_false in Hc.
      destruct c; [by destruct Hc|done].
    + destruct (IH Hr) as [i Hi]. by exists (S i).
  - intros [i Hi]. destruct (isFull board) eqn:E; [|done].
    rewrite isFull_true in E. by destruct (E i).
Qed.
End BoardModel.

(** C3: [winnerInfo] returns a result exactly when one of the eight
    lines holds one mark in all three cells; it returns nothing for the
    empty board; and a result is the first such line in the scan order of
    [LINES] (three rows, three columns, two diagonals) with its mark. *)
Theorem winnerInfo_first_uniform_line (board : Board) :
  (is_Some (winnerInfo board) ↔ ∃ l m, l ∈ LINES ∧ uniform board l m)
  ∧ winnerInfo emptyBoard = None
  ∧ (∀ w, winnerInfo board = Some w →
       ∃ pre l post, LINES = pre ++ l :: post
         ∧ line w = line_cells l ∧ uniform board l (symbol w)
         ∧ ∀ l' m, l' ∈ pre → ¬ uniform board l' m)
  ∧ LINES = rows ++ columns ++ diagonals
  ∧ length LINES = 8%nat.
Proof.
  split_and!.
  - split.
    + intros [w Hw]. apply winnerInfo_Some_completes in Hw as (l & Hl & Hu). eauto.
    + intros (l & m & Hl & Hu).
      destruct (winnerInfo board) as [w|] eqn:E; [by eexists|].
      rewrite winnerInfo_None in E. destruct (E m). by exists l.
  - reflexivity.
  - intros w (pre & l & post & E & Hh & Hpre)%scan_Some.
    apply line_hit_Some in Hh as [Hu Hl].
    exists pre, l, post. split_and!; auto.
    intros l' m Hl' Hu'. specialize (Hpre l' Hl').
    rewrite line_hit_None in Hpre. by apply (Hpre m).
  - reflexivity.
  - reflexivity.
Qed.

(** ** Numbers with infinities: [<=] is a total order *)

Section NumOrder.
Implicit Types a b c : num.

Lemma num_leb_refl a : num_leb a a = true.
Proof. destruct a; simpl; auto. apply Z.leb_refl. Qed.

Lemma num_leb_total a b : num_leb a b = true ∨ num_leb b a = true.
Proof. destruct a, b; simpl; auto. rewrite !Z.leb_le. lia. Qed.

Lemma num_leb_trans a b c :
  num_leb a b = true → num_leb b c = true → num_leb a c = true.
Proof.
  destruct a, b, c; simpl; auto; try discriminate.
  rewrite !Z.leb_le. lia.
Qed.

Lemma num_leb_antisym a b :
  num_leb a b = true → num_leb b a = true → a = b.
Proof.
  destruct a, b; simpl; auto; try discriminate.
  rewrite !Z.leb_le. intros. f_equal. lia.
Qed.

Lemma num_gtb_true a b : num_gtb a b = true ↔ num_leb a b = false.
Proof. unfold num_gtb. by destruct (num_leb a b). Qed.

Lemma num_gtb_leb a b : num_gtb a b = true → num_leb b a = true.
Proof.
  rewrite num_gtb_true. intros H. destruct (num_leb_total a b); congruence.
Qed.
End NumOrder.

(** ** The search: termination, restoration of the array, values *)

Section Search.
Implicit Types (board : Board) (m : Mark) (i j : nat) (v best : num).

Lemma count_null_le_length board : (count_null board ≤ length board)%nat.
Proof. induction board as [|[m|] board IH]; simpl; lia. Qed.

Lemma count_null_insert board i m :
  board !! i = Some None →
  S (count_null (<[i := Some m]> board)) = count_null board.
Proof.
  revert i. induction board as [|c board IH]; intros [|i] Hi; simpl in *;
    try discriminate.
  - by injection Hi as ->.
  - destruct c; simpl; rewrite <- (IH i Hi); auto.
Qed.

(** Writing the mark and then [null] again gives the array back. *)
Lemma restore_cell board i m :
  board !! i = Some None → <[i := None]> (<[i := Some m]> board) = board.
Proof. intros Hi. rewrite list_insert_insert_eq. by apply list_insert_id. Qed.

(** A loop of [minimax] whose recursive calls return and restore the
    array computes [fold_cells] and leaves the array as it was. *)
Lemma for_each_try_cell (rec : Board → option (num * Board)) m combine board idx best :
  (∀ i, i ∈ idx → board !! i = Some None →
        ∃ v, rec (<[i := Some m]> board) = Some (v, <[i := Some m]> board)) →
  for_each (try_cell rec m combine) idx (best, board)
  = Some (fold_cells (fun i => val (rec (<[i := Some m]> board))) combine board idx best,
          board).
Proof.
  revert best. induction idx as [|i idx IH]; intros best Hrec; simpl; [done|].
  destruct (board !! i) as [[m'|]|] eqn:Hi.
  - apply IH. intros j Hj. apply Hrec. by apply list_elem_of_further.
  - destruct (Hrec i (list_elem_of_here _ _) Hi) as [v Hv]. rewrite Hv.
    rewrite (restore_cell _ _ _ Hi). simpl.
    apply IH. intros j Hj. apply Hrec. by apply list_elem_of_further.
  - apply IH. intros j Hj. apply Hrec. by apply list_elem_of_further.
Qed.

Lemma fold_cells_ext f g combine board idx best :
  (∀ i, i ∈ idx → board !! i = Some None → f i = g i) →
  fold_cells f combine board idx best = fold_cells g combine board idx best.
Proof.
  revert best. unfold fold_cells.
  induction idx as [|i idx IH]; intros best Hfg; simpl; [done|].
  destruct (board !! i) as [[m'|]|] eqn:Hi.
  - apply IH. intros j Hj. apply Hfg. by apply list_elem_of_further.
  - rewrite (Hfg i (list_elem_of_here _ _) Hi).
    apply IH. intros j Hj. apply Hfg. by apply list_elem_of_further.
  - apply IH. intros j Hj. apply Hfg. by apply list_elem_of_further.
Qed.

Lemma num_max_fin a b : a ≠ PosInf → is_fin b → is_fin (num_max a b).
Proof.
  intros Ha [z ->]. unfold is_fin, num_max. destruct a as [|x|]; simpl; eauto.
  - destruct (x <=? z); eauto.
  - done.
Qed.

Lemma num_min_fin a b : a ≠ NegInf → is_fin b → is_fin (num_min a b).
Proof.
  intros Ha [z ->]. unfold is_fin, num_min. destruct a as [|x|]; simpl; eauto.
  - done.
  - destruct (x <=? z); eauto.
Qed.

(** A loop over at least one null cell ends with a finite [best];
    [good] is what the loop keeps true of [best] (never [+Infinity] when
    maximising, never [-Infinity] when minimising). *)
Lemma fold_cells_fin f combine (good : num → Prop) board idx best :
  (∀ a b, good a → is_fin b → is_fin (combine a b)) →
  (∀ a, is_fin a → good a) →
  (∀ i, i ∈ idx → board !! i = Some None → is_fin (f i)) →
  good best →
  is_fin best ∨ (∃ i, i ∈ idx ∧ board !! i = Some None) →
  is_fin (fold_cells f combine board idx best).
Proof.
  intros Hc Hg. revert best. unfold fold_cells.
  induction idx as [|i idx IH]; intros best Hf Hgb Hb; simpl.
  - destruct Hb as [Hb|(i & Hi & _)]; [done|by apply elem_of_nil in Hi].
  - assert (∀ j, j ∈ idx → board !! j = Some None → is_fin (f j)) as Hf'
        by (intros j Hj; apply Hf; by apply list_elem_of_further).
    destruct (board !! i) as [[m'|]|] eqn:Hi.
    + apply IH; [done|done|]. destruct Hb as [Hb|(j & [->|Hj]%elem_of_cons & Hn)];
        [by left|congruence|right; eauto].
    + assert (is_fin (combine best (f i))) as Hfin
          by (apply Hc; [done|apply Hf; [apply list_elem_of_here|done]]).
      apply IH; [done|by apply Hg|by left].
    + apply IH; [done|done|]. destruct Hb as [Hb|(j & [->|Hj]%elem_of_cons & Hn)];
        [by left|congruence|right; eauto].
Qed.

Lemma null_in_seq board i :
  board !! i = Some None → i ∈ seq 0 (length board).
Proof. intros Hi%lookup_lt_Some. apply elem_of_seq. lia. Qed.

(** [minimax] returns, with a finite score, and leaves the array as it
    received it, whenever the fuel exceeds the number of null cells. *)
Lemma minimax_fuel_total fuel board depth isMax ai human :
  (count_null board < fuel)%nat →
  ∃ z, minimax_fuel fuel board depth isMax ai human = Some (Fin z, board).
Proof.
  revert board depth isMax.
  induction fuel as [|fuel IH]; intros board depth isMax Hlt; [lia|].
  simpl. destruct (winnerInfo board) as [w|].
  { case_bool_decide; eauto. }
  destruct (isFull board) eqn:Hfull; [eauto|].
  apply isFull_false in Hfull as [i0 Hi0].
  assert (∀ m isMax' i, board !! i = Some None →
            ∃ z, minimax_fuel fuel (<[i := Some m]> board) (depth + 1) isMax' ai human
                 = Some (Fin z, <[i := Some m]> board)) as Hrec.
  { intros m isMax' i Hi. apply IH.
    pose proof (count_null_insert board i m Hi). lia. }
  destruct isMax.
  - rewrite for_each_try_cell.
    2:{ intros i _ Hi. destruct (Hrec ai false i Hi) as [z Hz]. eauto. }
    destruct (fold_cells_fin
                (fun i => val (minimax_fuel fuel (<[i := Some ai]> board) (depth + 1) false ai human))
                num_max (fun a => a ≠ PosInf) board (seq 0 (length board)) NegInf)
      as [z Hz].
    + apply num_max_fin.
    + by intros a [z ->].
    + intros i _ Hi. destruct (Hrec ai false i Hi) as [z ->]. by exists z.
    + done.
    + right. exists i0. split; [by apply null_in_seq|done].
    + rewrite Hz. eauto.
  - rewrite for_each_try_cell.
    2:{ intros i _ Hi. destruct (Hrec human true i Hi) as [z Hz]. eauto. }
    destruct (fold_cells_fin
                (fun i => val (minimax_fuel fuel (<[i := Some human]> board) (depth + 1) true ai human))
                num_min (fun a => a ≠ NegInf) board (seq 0 (length board)) PosInf)
      as [z Hz].
    + apply num_min_fin.
    + by intros a [z ->].
    + intros i _ Hi. destruct (Hrec human true i Hi) as [z ->]. by exists z.
    + done.
    + right. exists i0. split; [by apply null_in_seq|done].
    + rewrite Hz. eauto.
Qed.

Lemma minimax_total board depth isMax ai human :
  ∃ z, minimax board depth isMax ai human = Some (Fin z, board).
Proof.
  apply minimax_fuel_total. pose proof (count_null_le_length board). lia.
Qed.

(** More fuel than needed does not change the result. *)
Lemma minimax_fuel_indep fuel1 fuel2 board depth isMax ai human :
  (count_null board < fuel1)%nat → (count_null board < fuel2)%nat →
  minimax_fuel fuel1 board depth isMax ai human
  = minimax_fuel fuel2 board depth isMax ai human.
Proof.
  revert fuel2 board depth isMax.
  induction fuel1 as [|fuel1 IH]; intros [|fuel2] board depth isMax H1 H2; try lia.
  simpl. destruct (winnerInfo board) as [w|]; [done|].
  destruct (isFull board); [done|].
  assert (∀ m (isMax' : bool) i, board !! i = Some None →
            (count_null (<[i := Some m]> board) < fuel1)%nat
            ∧ (count_null (<[i := Some m]> board) < fuel2)%nat) as Hlt.
  { intros m isMax' i Hi. pose proof (count_null_insert board i m Hi). lia. }
  destruct isMax.
  - rewrite !for_each_try_cell.
    + f_equal. f_equal. apply fold_cells_ext. intros i _ Hi.
      f_equal. apply IH; by apply (Hlt ai false i).
    + intros i _ Hi. destruct (minimax_fuel_total fuel2 (<[i := Some ai]> board)
                                 (depth + 1) false ai human) as [z Hz]; eauto.
      by apply (Hlt ai false i).
    + intros i _ Hi. destruct (minimax_fuel_total fuel1 (<[i := Some ai]> board)
                                 (depth + 1) false ai human) as [z Hz]; eauto.
      by apply (Hlt ai false i).
  - rewrite !for_each_try_cell.
    + f_equal. f_equal. apply fold_cells_ext. intros i _ Hi.
      f_equal. apply IH; by apply (Hlt human true i).
    + intros i _ Hi. destruct (minimax_fuel_total fuel2 (<[i := Some human]> board)
                                 (depth + 1) true ai human) as [z Hz]; eauto.
      by apply (Hlt human true i).
    + intros i _ Hi. destruct (minimax_fuel_total fuel1 (<[i := Some human]> board)
                                 (depth + 1) true ai human) as [z Hz]; eauto.
      by apply (Hlt human true i).
Qed.
End Search.

(** ** Move selection *)

Section MoveSelection.
Context (board : Board) (ai human : Mark).
Implicit Types (i j : nat) (s : Root) (seen idx : list nat).

Lemma root_inv_start : root_inv board ai human [] (mkRoot NegInf [] board).
Proof.
  unfold root_inv. simpl. split_and!.
  - done.
  - intros j Hj. by apply elem_of_nil in Hj.
  - intros j Hj. by apply elem_of_nil in Hj.
  - intros j Hj. by apply elem_of_nil in Hj.
  - intros _. split; [done|]. intros j Hj. by apply elem_of_nil in Hj.
Qed.

Lemma elem_of_snoc seen i j : j ∈ seen ++ [i] ↔ j ∈ seen ∨ j = i.
Proof. by rewrite elem_of_app, list_elem_of_singleton. Qed.

Lemma root_inv_skip seen i s :
  board !! i ≠ Some None →
  root_inv board ai human seen s → root_inv board ai human (seen ++ [i]) s.
Proof.
  intros Hi (Hb & Hin & Hle & Hall & Hnil). unfold root_inv. split_and!.
  - done.
  - intros j Hj. destruct (Hin j Hj) as (? & ? & ?). split_and!; auto.
    apply elem_of_snoc; auto.
  - intros j [Hj| ->]%elem_of_snoc Hn; [auto|congruence].
  - intros j [Hj| ->]%elem_of_snoc Hn; [auto|congruence].
  - intros Hm. destruct (Hnil Hm) as [? Hno]. split; [done|].
    intros j [Hj| ->]%elem_of_snoc; [auto|congruence].
Qed.

Lemma root_cell_inv seen i s :
  root_inv board ai human seen s →
  ∃ s', root_cell ai human i s = Some s' ∧ root_inv board ai human (seen ++ [i]) s'.
Proof.
  intros Hinv. pose proof Hinv as (Hb & _).
  unfold root_cell. rewrite Hb.
  destruct (board !! i) as [[m|]|] eqn:Hi.
  1,3: exists s; split; [done|]; apply root_inv_skip; [congruence|done].
  destruct s as [best moves b]. unfold root_inv in *. simpl in *.
  destruct Hinv as (_ & Hin & Hle & Hall & Hnil). subst b.
  pose proof (elem_of_snoc seen i) as Hseen.
  destruct (minimax_total (<[i := Some ai]> board) 0 false ai human) as [z Hz].
  assert (score_at board ai human i = Fin z) as Hsc
      by (unfold score_at; by rewrite Hz).
  rewrite Hz, (restore_cell _ _ _ Hi).
  destruct (num_gtb (Fin z) best) eqn:Hgt.
  - eexists; split; [done|]. simpl. split_and!.
    + done.
    + intros j ->%list_elem_of_singleton. split_and!; auto. apply Hseen; auto.
    + intros j [Hj| ->]%Hseen Hn.
      * eapply num_leb_trans; [by apply Hle|by apply num_gtb_leb].
      * rewrite Hsc. apply num_leb_refl.
    + intros j [Hj| ->]%Hseen Hn Hj'; [|apply list_elem_of_here].
      specialize (Hle j Hj Hn). rewrite Hj' in Hle.
      apply num_gtb_true in Hgt. congruence.
    + discriminate.
  - assert (num_leb (Fin z) best = true) as Hzb.
    { unfold num_gtb in Hgt. by destruct (num_leb (Fin z) best). }
    case_bool_decide as Heq.
    + eexists; split; [done|]. simpl. split_and!.
      * done.
      * intros j [Hj| ->%list_elem_of_singleton]%elem_of_app.
        -- destruct (Hin j Hj) as (? & ? & ?). split_and!; auto. apply Hseen; auto.
        -- split_and!; auto; [apply Hseen; auto|congruence].
      * intros j [Hj| ->]%Hseen Hn; [auto|]. by rewrite Hsc.
      * intros j [Hj| ->]%Hseen Hn Hj'; apply elem_of_app; [left; auto|right].
        apply list_elem_of_here.
      * intros Hm. by apply app_eq_nil in Hm as [_ ?].
    + eexists; split; [done|]. simpl. split_and!.
      * done.
      * intros j Hj. destruct (Hin j Hj) as (? & ? & ?). split_and!; auto.
        apply Hseen; auto.
      * intros j [Hj| ->]%Hseen Hn; [auto|]. by rewrite Hsc.
      * intros j [Hj| ->]%Hseen Hn Hj'; [auto|]. congruence.
      * intros Hm. destruct (Hnil Hm) as [-> _]. simpl in Hzb. discriminate.
Qed.

Lemma for_each_root_inv idx seen s :
  root_inv board ai human seen s →
  ∃ s', for_each (root_cell ai human) idx s = Some s'
        ∧ root_inv board ai human (seen ++ idx) s'.
Proof.
  revert seen s. induction idx as [|i idx IH]; intros seen s Hinv; simpl.
  - exists s. by rewrite app_nil_r.
  - destruct (root_cell_inv seen i s Hinv) as (s1 & -> & Hinv1).
    destruct (IH _ _ Hinv1) as (s' & Hs' & Hinv').
    exists s'. split; [done|]. by rewrite <- app_assoc in Hinv'.
Qed.

(** The loop of [bestMove] returns, and its invariant holds of all
    cells. *)
Lemma root_loop_spec :
  ∃ s, root_loop board ai human = Some s
       ∧ root_inv board ai human (seq 0 (length board)) s.
Proof.
  destruct (for_each_root_inv (seq 0 (length board)) [] _ root_inv_start)
    as (s & Hs & Hinv).
  exists s. split; done.
Qed.
End MoveSelection.

(** ** The random draw *)

Section Pick.
Implicit Types (rnd : Q) (moves : list nat).

Lemma pick_elem rnd moves i : pick rnd moves = MIndex i → i ∈ moves.
Proof.
  unfold pick. destruct (_ <? 0); [discriminate|].
  destruct (moves !! _) as [j|] eqn:Hj; [|discriminate].
  intros [= <-]. by eapply list_elem_of_lookup_2.
Qed.

(** A draw in [[0, 1)] reads inside a non-empty [moves]. *)
Lemma pick_in_range rnd moves :
  (0 <= rnd)%Q → (rnd < 1)%Q → moves ≠ [] →
  ∃ i, pick rnd moves = MIndex i ∧ i ∈ moves.
Proof.
  intros H0 H1 Hne. unfold pick.
  set (n := Z.of_nat (length moves)).
  assert (0 < n) as Hn by (destruct moves; [done|simpl in n; lia]).
  set (k := Qfloor (rnd * inject_Z n)).
  assert (0 <= k) as Hk0.
  { change 0 with (Qfloor (inject_Z 0)). apply Qfloor_resp_le.
    apply Qmult_le_0_compat; [done|]. unfold Qle. simpl. lia. }
  assert (k < n) as Hkn.
  { rewrite Zlt_Qlt. eapply Qle_lt_trans; [apply Qfloor_le|].
    rewrite <- (Qmult_1_l (inject_Z n)) at 2.
    apply Qmult_lt_compat_r; [|done]. unfold Qlt. simpl. lia. }
  destruct (k <? 0) eqn:E; [apply Z.ltb_lt in E; lia|].
  destruct (lookup_lt_is_Some_2 moves (Z.to_nat k)) as [i Hi]; [lia|].
  rewrite Hi. exists i. split; [done|]. by eapply list_elem_of_lookup_2.
Qed.

(** Every entry of [moves] is read by some draw in [[0, 1)]. *)
Lemma pick_any moves i :
  i ∈ moves → ∃ rnd, (0 <= rnd)%Q ∧ (rnd < 1)%Q ∧ pick rnd moves = MIndex i.
Proof.
  intros [k Hk]%list_elem_of_lookup_1.
  pose proof (lookup_lt_Some _ _ _ Hk) as Hlt.
  set (n := Z.of_nat (length moves)).
  assert (0 < n) as Hn by lia.
  pose proof (Z2Pos.id n Hn) as Hid.
  exists (Z.of_nat k # Z.to_pos n)%Q. split_and!.
  - unfold Qle. simpl. lia.
  - unfold Qlt. cbn [Qnum Qden]. lia.
  - unfold pick. fold n.
    assert (Qfloor ((Z.of_nat k # Z.to_pos n) * inject_Z n) = Z.of_nat k) as ->.
    { rewrite <- (Qfloor_Z (Z.of_nat k)) at 2. apply Qfloor_comp.
      unfold Qeq, inject_Z, Qmult. cbn [Qnum Qden]. rewrite Pos.mul_1_r. nia. }
    destruct (Z.of_nat k <? 0) eqn:E; [apply Z.ltb_lt in E; lia|].
    by rewrite Nat2Z.id, Hk.
Qed.
End Pick.

(** ** [bestMove] *)

Section BestMove.
Implicit Types (rnd : Q) (board : Board) (ai human : Mark).

(** [bestMove] returns; it leaves the array as received; it answers
    [null] when [moves] is empty and reads [moves] otherwise. *)
Lemma bestMove_spec board ai human :
  ∃ s, root_inv board ai human (seq 0 (length board)) s
       ∧ ∀ rnd, bestMove rnd board ai human
                = Some (match r_moves s with
                        | [] => MNull
                        | _ => pick rnd (r_moves s)
                        end, board).
Proof.
  destruct (root_loop_spec board ai human) as (s & Hs & Hinv).
  exists s. split; [done|]. intros rnd. unfold bestMove. rewrite Hs.
  destruct Hinv as (-> & _). by destruct (r_moves s).
Qed.

(** After the loop, [moves] is empty exactly when no cell is null. *)
Lemma root_inv_moves_nil board ai human s :
  root_inv board ai human (seq 0 (length board)) s →
  r_moves s = [] ↔ isFull board = true.
Proof.
  intros (_ & Hin & _ & _ & Hnil). rewrite isFull_true. split.
  - intros Hm i Hi. destruct (Hnil Hm) as [_ Hno].
    by apply (Hno i (null_in_seq _ _ Hi)).
  - intros Hfull. destruct (r_moves s) as [|j moves]; [done|].
    destruct (Hin j) as (_ & Hj & _); [apply list_elem_of_here|].
    by destruct (Hfull j).
Qed.

Lemma score_at_minimax board ai human i :
  ∃ z, score_at board ai human i = Fin z
       ∧ minimax (<[i := Some ai]> board) 0 false ai human
         = Some (Fin z, <[i := Some ai]> board).
Proof.
  destruct (minimax_total (<[i := Some ai]> board) 0 false ai human) as [z Hz].
  exists z. unfold score_at. by rewrite Hz.
Qed.

(** Any index [bestMove] returns is a null cell. *)
Lemma bestMove_index_null rnd board ai human i b' :
  bestMove rnd board ai human = Some (MIndex i, b') → board !! i = Some None.
Proof.
  destruct (bestMove_spec board ai human) as (s & (_ & Hin & _) & Hbm).
  rewrite Hbm. intros [= Hm _].
  assert (pick rnd (r_moves s) = MIndex i) as Hp
      by (destruct (r_moves s); [discriminate|done]).
  apply pick_elem in Hp. by destruct (Hin i Hp) as (_ & ? & _).
Qed.
End BestMove.

(** C1: on a board with a null cell, [bestMove] returns the index [i] of
    a null cell whose minimax score [z] (the value of [minimax] on the
    board with [ai] placed at [i], at depth 0, minimising) is the largest
    among all null cells; and every null cell with that score is
    returned for some draw of [Math.random()]. *)
Theorem bestMove_picks_max_scoring_empty_cell
    (rnd : Q) (board : Board) (ai human : Mark) :
  (0 <= rnd)%Q → (rnd < 1)%Q →
  (∃ j, board !! j = Some None) →
  ∃ i z,
    bestMove rnd board ai human = Some (MIndex i, board)
    ∧ board !! i = Some None
    ∧ minimax (<[i := Some ai]> board) 0 false ai human
      = Some (Fin z, <[i := Some ai]> board)
    ∧ (∀ j, board !! j = Some None →
            ∃ zj, minimax (<[j := Some ai]> board) 0 false ai human
                  = Some (Fin zj, <[j := Some ai]> board)
                  ∧ zj <= z)
    ∧ (∀ j, board !! j = Some None →
            minimax (<[j := Some ai]> board) 0 false ai human
            = Some (Fin z, <[j := Some ai]> board) →
            ∃ rnd', (0 <= rnd')%Q ∧ (rnd' < 1)%Q
                    ∧ bestMove rnd' board ai human = Some (MIndex j, board)).
Proof.
  intros H0 H1 [j0 Hj0].
  destruct (bestMove_spec board ai human) as (s & Hinv & Hbm).
  pose proof Hinv as (_ & Hin & Hle & Hall & _).
  assert (r_moves s ≠ []) as Hne.
  { intros Hm. apply (root_inv_moves_nil _ _ _ _ Hinv) in Hm.
    rewrite isFull_true in Hm. by destruct (Hm j0). }
  destruct (pick_in_range rnd (r_moves s) H0 H1 Hne) as (i & Hpick & Hi).
  destruct (Hin i Hi) as (_ & Hnull & Hscore).
  destruct (score_at_minimax board ai human i) as (z & Hz & Hmm).
  exists i, z. split_and!.
  - rewrite Hbm, Hpick. by destruct (r_moves s).
  - done.
  - done.
  - intros j Hj.
    destruct (score_at_minimax board ai human j) as (zj & Hzj & Hmj).
    exists zj. split; [done|].
    specialize (Hle j (null_in_seq _ _ Hj) Hj).
    rewrite Hzj, <- Hscore, Hz in Hle. by apply Z.leb_le in Hle.
  - intros j Hj Hjz.
    assert (j ∈ r_moves s) as Hjm.
    { apply Hall; [by apply null_in_seq|done|].
      unfold score_at at 1. rewrite Hjz. simpl. congruence. }
    destruct (pick_any _ _ Hjm) as (rnd' & H0' & H1' & Hp').
    exists rnd'. split_and!; [done..|].
    rewrite Hbm, Hp'. by destruct (r_moves s).
Qed.

Lemma bestMove_picks_max_scoring_empty_cell_witness :
  ∃ i, bestMove (1 # 2) two_in_a_row O X = Some (MIndex i, two_in_a_row)
       ∧ two_in_a_row !! i = Some None.
Proof.
  destruct (bestMove_picks_max_scoring_empty_cell (1 # 2) two_in_a_row O X)
    as (i & z & Hb & Hn & _).
  - unfold Qle. simpl. lia.
  - unfold Qlt. simpl. lia.
  - exists 2%nat. reflexivity.
  - exists i. split; assumption.
Defined.

(** C10: whatever array [bestMove] is given, the array it leaves is the
    one it received: [minimax] returns with every cell it wrote set back
    to [null], at every depth and for either player, and so does the loop
    of [bestMove]. *)
Theorem bestMove_leaves_board_unchanged
    (rnd : Q) (board : Board) (ai human : Mark) :
  (∃ mv, bestMove rnd board ai human = Some (mv, board))
  ∧ (∀ depth isMax, ∃ z, minimax board depth isMax ai human = Some (Fin z, board))
  ∧ (∀ i m, board !! i = Some None → <[i := None]> (<[i := Some m]> board) = board).
Proof.
  split_and!.
  - destruct (bestMove_spec board ai human) as (s & _ & Hbm). rewrite Hbm. eauto.
  - intros depth isMax. apply minimax_total.
  - intros i m. apply restore_cell.
Qed.

(** C7, as stated, fails: on a board that already holds a completed
    line and has a null cell, [bestMove] returns an index, not [null]. *)
Lemma bestMove_on_decided_board_returns_index :
  completes decided_board X
  ∧ bestMove (1 # 2) decided_board O X = Some (MIndex 7, decided_board).
Proof.
  split.
  - exists (0, 1, 2)%nat. split; [apply list_elem_of_here|by compute].
  - vm_compute. reflexivity.
Qed.

(** C7, amended: [bestMove] returns [null] exactly when the board has no
    null cell (so on every full board); on any board with a null cell,
    decided or not, it returns the index of a null cell. *)
Theorem bestMove_null_iff_full (rnd : Q) (board : Board) (ai human : Mark) :
  (0 <= rnd)%Q → (rnd < 1)%Q →
  (bestMove rnd board ai human = Some (MNull, board) ↔ isFull board = true)
  ∧ (isFull board = false →
     ∃ i, bestMove rnd board ai human = Some (MIndex i, board)
          ∧ board !! i = Some None).
Proof.
  intros H0 H1.
  destruct (bestMove_spec board ai human) as (s & Hinv & Hbm).
  pose proof (root_inv_moves_nil _ _ _ _ Hinv) as Hnil.
  destruct (isFull board) eqn:Hfull.
  - assert (r_moves s = []) as Hm by (by apply Hnil).
    split; [|discriminate]. rewrite Hbm, Hm. done.
  - assert (r_moves s ≠ []) as Hne by (intros Hm; apply Hnil in Hm; discriminate).
    destruct (pick_in_range rnd (r_moves s) H0 H1 Hne) as (i & Hpick & Hi).
    assert (bestMove rnd board ai human = Some (MIndex i, board)) as Hb.
    { rewrite Hbm, Hpick. by destruct (r_moves s). }
    split.
    + rewrite Hb. split; discriminate.
    + intros _. exists i. split; [done|]. by eapply bestMove_index_null.
Qed.

Lemma bestMove_null_iff_full_witness :
  ∃ i, bestMove (1 # 2) decided_board O X = Some (MIndex i, decided_board)
       ∧ decided_board !! i = Some None.
Proof.
  apply (bestMove_null_iff_full (1 # 2) decided_board O X).
  - unfold Qle. simpl. lia.
  - unfold Qlt. simpl. lia.
  - reflexivity.
Defined.

(** ** Scenarios *)

(** The human ['X'] took the centre of the empty board: the candidates of
    the computer are the four corners. *)
Example centre_is_answered_in_a_corner :
  r_moves <$> root_loop (<[4%nat := Some X]> emptyBoard) O X = Some [0; 2; 6; 8]%nat.
Proof. vm_compute. reflexivity. Qed.

(** On [X X _ / O O _ / _ _ _] the human plays cell 2: the top row wins. *)
Example top_row_is_a_human_win :
  derive (<[2%nat := Some X]> two_in_a_row) X = ([0; 1; 2]%nat, Some RHuman).
Proof. reflexivity. Qed.

(** A full board without a completed line is a draw, with no line. *)
Example full_board_is_a_draw :
  derive [Some X; Some O; Some X; Some X; Some O; Some O; Some O; Some X; Some X] X
  = ([], Some RDraw).
Proof. reflexivity. Qed.

(** ** Terminal scoring *)

Section Terminal.
Implicit Types (board : Board) (ai human : Mark) (depth : Z) (isMax : bool).

(** [minimax] on a board [winnerInfo] decides. *)
Lemma minimax_winner board depth isMax ai human w :
  winnerInfo board = Some w →
  minimax board depth isMax ai human
  = Some (Fin (if bool_decide (symbol w = ai) then 10 - depth else depth - 10), board).
Proof.
  intros Hw. unfold minimax. simpl. rewrite Hw. by case_bool_decide.
Qed.

Lemma minimax_draw board depth isMax ai human :
  winnerInfo board = None → isFull board = true →
  minimax board depth isMax ai human = Some (Fin 0, board).
Proof. intros Hw Hf. unfold minimax. simpl. by rewrite Hw, Hf. Qed.

(** With one mark alone holding a completed line, [winnerInfo] reports
    that mark. *)
Lemma winnerInfo_sole board m m' :
  m ≠ m' → completes board m → ¬ completes board m' →
  ∃ w, winnerInfo board = Some w ∧ symbol w = m.
Proof.
  intros Hne Hm Hm'. destruct (winnerInfo board) as [w|] eqn:E.
  - exists w. split; [done|]. apply winnerInfo_Some_completes in E.
    destruct (symbol w), m, m'; done.
  - rewrite winnerInfo_None in E. by destruct (E m).
Qed.

(** Below a board that is not terminal, the maximising ply takes the
    largest value of its children and the minimising ply the smallest;
    the children are evaluated one level deeper. *)
Lemma minimax_step board depth isMax ai human :
  winnerInfo board = None → isFull board = false →
  minimax board depth isMax ai human
  = Some (fold_cells
            (fun i => val (minimax (<[i := Some (if isMax then ai else human)]> board)
                             (depth + 1) (negb isMax) ai human))
            (if isMax then num_max else num_min)
            board (seq 0 (length board)) (if isMax then NegInf else PosInf),
          board).
Proof.
  intros Hw Hf. unfold minimax at 1. simpl. rewrite Hw, Hf.
  assert (∀ m i, board !! i = Some None →
            (count_null (<[i := Some m]> board) < length board)%nat) as Hlt.
  { intros m i Hi. pose proof (count_null_insert board i m Hi).
    pose proof (count_null_le_length board). lia. }
  assert (∀ m i, (count_null (<[i := Some m]> board)
                  < S (length (<[i := Some m]> board)))%nat) as Hlt'.
  { intros m i. pose proof (count_null_le_length (<[i := Some m]> board)). lia. }
  destruct isMax; simpl.
  - rewrite for_each_try_cell.
    + f_equal. f_equal. apply fold_cells_ext. intros i _ Hi. f_equal.
      apply minimax_fuel_indep; auto.
    + intros i _ Hi.
      destruct (minimax_fuel_total (length board) (<[i := Some ai]> board)
                  (depth + 1) false ai human) as [z Hz]; eauto.
  - rewrite for_each_try_cell.
    + f_equal. f_equal. apply fold_cells_ext. intros i _ Hi. f_equal.
      apply minimax_fuel_indep; auto.
    + intros i _ Hi.
      destruct (minimax_fuel_total (length board) (<[i := Some human]> board)
                  (depth + 1) true ai human) as [z Hz]; eauto.
Qed.
End Terminal.



(** ** The round controller *)

Section Controller.
Implicit Types (s prev cur : State) (u : Update) (e : Event).

(** A render after which neither [human] nor [result] differs runs no
    effect that sets anything. *)
Lemma commit_same prev cur :
  human cur = human prev → result cur = result prev →
  commit prev cur false false = cur.
Proof.
  intros Hh Hr. unfold commit. simpl.
  rewrite (bool_decide_eq_false_2 (human cur ≠ human prev)) by auto.
  rewrite (bool_decide_eq_false_2 (result cur ≠ result prev)) by auto.
  by destruct cur.
Qed.

Lemma commit_human prev cur nb nbeep : human (commit prev cur nb nbeep) = human cur.
Proof. unfold commit. by repeat (case_match; simplify_eq/=). Qed.

Lemma commit_board prev cur nb nbeep : board (commit prev cur nb nbeep) = board cur.
Proof. unfold commit. by repeat (case_match; simplify_eq/=). Qed.

Lemma commit_turn prev cur nb nbeep : turn (commit prev cur nb nbeep) = turn cur.
Proof. unfold commit. by repeat (case_match; simplify_eq/=). Qed.

(** The second commit leaves nothing for a third. *)
Lemma settle_quiescent prev u :
  commit (commit prev (next u) (board_set u) (beep_new u)) (settle prev u) false false
  = settle prev u.
Proof.
  apply commit_same; unfold settle.
  - by rewrite !commit_human.
  - assert (human (commit prev (next u) (board_set u) (beep_new u)) = human (next u))
      as Hh by apply commit_human.
    revert Hh. generalize (commit prev (next u) (board_set u) (beep_new u)).
    intros s1 Hh. unfold commit. simpl.
    rewrite (bool_decide_eq_false_2 (human s1 ≠ human (next u))) by auto.
    by repeat (case_match; simplify_eq/=).
Qed.

(** A handler that set nothing causes no render. *)
Lemma settle_no_update s : settle s (no_update s) = s.
Proof.
  unfold settle, no_update. simpl.
  rewrite (commit_same s s) by done. by apply commit_same.
Qed.

(** The state [restartRound] and [chooseSymbol] settle in. *)
Lemma settle_reset s h :
  settle s (mkUpdate (reset h s) true false) = reset h s.
Proof.
  unfold settle. simpl.
  assert (commit s (reset h s) true false = reset h s) as ->.
  { unfold commit, reset. simpl. by repeat (case_match; simplify_eq/=). }
  by apply commit_same.
Qed.
End Controller.

(** C5: a click on an occupied cell, a click while it is not the human's
    turn, and a click after the round is over set nothing: the whole
    state (board, turn, result, winning line, score) stays as it is. *)
Theorem illegal_click_is_ignored (s : State) (idx : nat) :
  result s ≠ None ∨ turn s ≠ human s ∨ (∃ m, board s !! idx = Some (Some m)) →
  clickCell idx s = no_update s ∧ step (Click idx) s = s.
Proof.
  intros Hill.
  assert (clickCell idx s = no_update s) as Hc.
  { unfold clickCell. repeat case_bool_decide; try done.
    destruct Hill as [?|[?|[m Hm]]]; try done. congruence. }
  split; [done|]. unfold step, handle. rewrite Hc. apply settle_no_update.
Qed.

Lemma illegal_click_is_ignored_witness :
  step (Click 4) centre_taken = centre_taken.
Proof.
  apply (illegal_click_is_ignored centre_taken 4).
  right. left. discriminate.
Defined.

(** C8, as stated, fails: when the human holds ['O'], the restarted
    round waits for the computer, not for the human. *)
Lemma restart_with_human_O_awaits_computer :
  human (step (Choose O) init) = O
  ∧ phase (step Restart (step (Choose O) init)) = AwaitingComputer.
Proof. split; reflexivity. Qed.

(** C8, amended: [restartRound] twice gives the same state as once, and
    that state has the empty board, no result, and ['X'] to move: the
    controller awaits the human when the human holds ['X'] and the
    computer when the human holds ['O']. *)
Theorem restartRound_idempotent (s : State) :
  step Restart (step Restart s) = step Restart s
  ∧ board (step Restart s) = emptyBoard
  ∧ turn (step Restart s) = X
  ∧ result (step Restart s) = None
  ∧ winLine (step Restart s) = []
  ∧ human (step Restart s) = human s
  ∧ score (step Restart s) = score s
  ∧ phase (step Restart s)
    = (if bool_decide (human s = X) then AwaitingHuman else AwaitingComputer).
Proof.
  unfold step, handle, restartRound. rewrite !settle_reset.
  split_and!; try reflexivity.
  unfold phase, reset. simpl. destruct (human s); reflexivity.
Qed.

(** C9, as stated, fails twice: choosing the mark the human already
    holds leaves a round in progress untouched, and choosing ['O'] leaves
    the controller waiting for the computer. *)
Lemma chooseSymbol_same_mark_keeps_board :
  human centre_taken = X
  ∧ board (step (Choose X) centre_taken) = <[4%nat := Some X]> emptyBoard
  ∧ board (step (Choose X) centre_taken) ≠ emptyBoard
  ∧ phase (step (Choose O) centre_taken) = AwaitingComputer.
Proof. split_and!; try reflexivity. discriminate. Qed.

(** C9, amended: [chooseSymbol] with the mark the human already holds
    changes nothing; with the other mark it is a reset whatever the
    state was: the human holds the new mark, the board is empty, there
    is no result, ['X'] is to move, and the score is kept; the controller
    then awaits the human when the new mark is ['X'] and the computer
    when it is ['O']. *)
Theorem chooseSymbol_resets_when_mark_differs (s : State) (m : Mark) :
  if bool_decide (m = human s)
  then step (Choose m) s = s
  else human (step (Choose m) s) = m
       ∧ board (step (Choose m) s) = emptyBoard
       ∧ turn (step (Choose m) s) = X
       ∧ result (step (Choose m) s) = None
       ∧ winLine (step (Choose m) s) = []
       ∧ score (step (Choose m) s) = score s
       ∧ phase (step (Choose m) s)
         = (if bool_decide (m = X) then AwaitingHuman else AwaitingComputer).
Proof.
  unfold step, handle, chooseSymbol. case_bool_decide as Hm.
  - apply settle_no_update.
  - rewrite settle_reset. split_and!; try reflexivity.
    unfold phase, reset. simpl. destruct m; reflexivity.
Qed.

(** ** The score tally *)

Section Tally.
Implicit Types (s : State) (e : Event).

Lemma settle_move s b' t' :
  result s = None →
  settle s (mkUpdate (mkState b' (human s) t' (result s) (winLine s) (score s)
                              (soundOn s) (scoredRef s)) true false)
  = after_move s b' t'.
Proof.
  intros Hr. unfold settle, after_move, commit. simpl. rewrite Hr.
  destruct (derive b' (human s)) as [wl [r|]]; simpl;
    repeat (case_bool_decide; simplify_eq/=); done.
Qed.

(** The computer's turn passes without a move (the guard
    [prev[move] !== null] of the timer callback). *)
Lemma settle_turn_only s t' :
  settle s (mkUpdate (mkState (board s) (human s) t' (result s) (winLine s)
                              (score s) (soundOn s) (scoredRef s)) false false)
  = mkState (board s) (human s) t' (result s) (winLine s) (score s) (soundOn s)
            (scoredRef s).
Proof.
  unfold settle. simpl. rewrite (commit_same s) by done. by apply commit_same.
Qed.

Lemma after_move_tally_inv (sc0 : Score) s b' t' :
  result s = None → tally_inv sc0 s → tally_inv sc0 (after_move s b' t').
Proof.
  unfold tally_inv, after_move. intros -> [Hsc Href].
  destruct (derive b' (human s)) as [wl [r|]]; simpl; [|done].
  rewrite Href. rewrite bool_decide_eq_false_2 by done. simpl. by rewrite Hsc.
Qed.

Lemma toggleSound_tally_inv (sc0 : Score) s :
  tally_inv sc0 s → tally_inv sc0 (step ToggleSound s).
Proof.
  unfold tally_inv, step, handle, toggleSound, settle, commit.
  destruct s as [b h t [r|] wl sc so ref]; simpl; intros [-> ->];
    repeat (case_bool_decide; simplify_eq/=); done.
Qed.

Lemma step_tally_inv (sc0 : Score) e s :
  in_round e → tally_inv sc0 s → tally_inv sc0 (step e s).
Proof.
  intros He Hinv. destruct e as [idx| |m| |rnd]; try done.
  - unfold step, handle, clickCell.
    case_bool_decide as Hr; [by rewrite settle_no_update|].
    case_bool_decide; [by rewrite settle_no_update|].
    case_bool_decide; [by rewrite settle_no_update|].
    assert (result s = None) as Hr' by (by destruct (result s); [destruct Hr|]).
    rewrite settle_move by done. by apply after_move_tally_inv.
  - by apply toggleSound_tally_inv.
  - unfold step, handle, aiTimer.
    case_bool_decide as Hr; [by rewrite settle_no_update|].
    case_bool_decide; [by rewrite settle_no_update|].
    assert (result s = None) as Hr' by (by destruct (result s); [destruct Hr|]).
    destruct (bestMove rnd (board s) (ai s) (human s)) as [[[|move|] b']|];
      try by rewrite settle_no_update.
    destruct (board s !! move) as [[m|]|].
    + rewrite settle_turn_only. by destruct s.
    + rewrite settle_move by done. by apply after_move_tally_inv.
    + rewrite settle_turn_only. by destruct s.
Qed.

Lemma run_tally_inv (sc0 : Score) evs s :
  Forall in_round evs → tally_inv sc0 s → tally_inv sc0 (run evs s).
Proof.
  intros Hevs. revert s. induction Hevs as [|e evs He _ IH]; intros s Hs; [done|].
  simpl. apply IH. by apply step_tally_inv.
Qed.

Lemma round_start_tally_inv s : round_start s → tally_inv (score s) s.
Proof. intros (_ & _ & Hr & _ & Href). unfold tally_inv. by rewrite Hr. Qed.

Lemma restart_round_start s : round_start (step Restart s).
Proof.
  unfold step, handle, restartRound. rewrite settle_reset. by unfold round_start.
Qed.
End Tally.

(** C6: from the start of a round on, through any clicks, computer
    moves and re-runs of the score effect (the sound toggle replaces
    [beep], a dependency of that effect), the score is the score at the
    start of the round while there is no result, and from the step that
    sets the result on, exactly one counter is one higher: [wins] for
    ['human'], [losses] for ['ai'], [draws] for ['draw']. *)
Theorem score_counted_once_per_round (s0 : State) (evs : list Event) :
  round_start s0 → Forall in_round evs →
  wins (score (run evs s0)) = wins (score s0) + counted (result (run evs s0)) RHuman
  ∧ losses (score (run evs s0)) = losses (score s0) + counted (result (run evs s0)) RAi
  ∧ draws (score (run evs s0)) = draws (score s0) + counted (result (run evs s0)) RDraw.
Proof.
  intros Hs0 Hevs.
  pose proof (run_tally_inv (score s0) evs s0 Hevs (round_start_tally_inv s0 Hs0)) as Hinv.
  unfold tally_inv in Hinv. unfold counted.
  destruct (result (run evs s0)) as [[| |]|]; destruct Hinv as [-> _]; simpl;
    repeat case_bool_decide; simplify_eq; lia.
Qed.

Example lost_round_counted_once :
  result (run lost_round init) = Some RAi
  ∧ winLine (run lost_round init) = [2; 4; 6]%nat
  ∧ score (run lost_round init) = mkScore 0 1 0.
Proof. vm_compute. split_and!; reflexivity. Qed.

Lemma score_counted_once_per_round_witness :
  wins (score (run lost_round init))
  = wins (score init) + counted (result (run lost_round init)) RHuman
  ∧ losses (score (run lost_round init))
    = losses (score init) + counted (result (run lost_round init)) RAi
  ∧ draws (score (run lost_round init))
    = draws (score init) + counted (result (run lost_round init)) RDraw.
Proof.
  apply (score_counted_once_per_round init lost_round).
  - unfold round_start. split_and!; reflexivity.
  - unfold lost_round. repeat constructor.
Defined.

(** ** The computer never loses when it moves second *)

Section NeverLoses.
Implicit Types (s : State) (b : Board) (e : Event).

Lemma safe_sound n h b : safe n h b = true → Safe h b.
Proof.
  revert h b. induction n as [|n IH]; intros h b; [discriminate|].
  simpl. destruct h.
  - rewrite forallb_forall. intros Hall.
    assert (∀ i, b !! i = Some None →
              match (derive (<[i := Some X]> b) X).2 with
              | Some RHuman => false
              | Some _ => true
              | None => safe n false (<[i := Some X]> b)
              end = true) as Hok.
    { intros i Hi. specialize (Hall i). rewrite Hi in Hall. apply Hall.
      apply list_elem_of_In. by apply null_in_seq. }
    constructor.
    + intros i Hi. specialize (Hok i Hi).
      by destruct ((derive (<[i := Some X]> b) X).2) as [[| |]|].
    + intros i Hi Hd. specialize (Hok i Hi). rewrite Hd in Hok. by apply IH.
  - destruct (root_loop b O X) as [s|] eqn:Hs; [|discriminate].
    rewrite forallb_forall. intros Hall.
    assert (∀ rnd i b0, bestMove rnd b O X = Some (MIndex i, b0) →
              match (derive (<[i := Some O]> b) X).2 with
              | Some RHuman => false
              | Some _ => true
              | None => safe n true (<[i := Some O]> b)
              end = true) as Hok.
    { intros rnd i b0 Hb. apply Hall. apply list_elem_of_In.
      unfold bestMove in Hb. rewrite Hs in Hb.
      destruct (r_moves s) as [|j moves] eqn:E; [discriminate|].
      injection Hb as Hp _. by apply pick_elem in Hp. }
    constructor.
    + intros rnd i b0 Hb. specialize (Hok rnd i b0 Hb).
      by destruct ((derive (<[i := Some O]> b) X).2) as [[| |]|].
    + intros rnd i b0 Hb Hd. specialize (Hok rnd i b0 Hb). rewrite Hd in Hok.
      by apply IH.
Qed.

(** The whole game from the empty board, the human moving first. *)
Lemma safe_emptyBoard : Safe true emptyBoard.
Proof. apply (safe_sound 10). vm_compute. reflexivity. Qed.

Lemma after_move_result s b' t' :
  result (after_move s b' t') = (derive b' (human s)).2
  ∧ board (after_move s b' t') = b'
  ∧ turn (after_move s b' t') = t'
  ∧ human (after_move s b' t') = human s.
Proof.
  unfold after_move. destruct (derive b' (human s)) as [wl [r|]]; simpl;
    [case_bool_decide|]; done.
Qed.

Lemma commit_result_keep prev cur nbeep :
  human cur = human prev → result (commit prev cur false nbeep) = result cur.
Proof.
  intros Hh. unfold commit. simpl.
  rewrite (bool_decide_eq_false_2 (human cur ≠ human prev)) by auto.
  repeat (case_match; simplify_eq/=); done.
Qed.

Lemma toggleSound_keeps s :
  human (step ToggleSound s) = human s
  ∧ board (step ToggleSound s) = board s
  ∧ turn (step ToggleSound s) = turn s
  ∧ result (step ToggleSound s) = result s.
Proof.
  unfold step, handle, toggleSound, settle. simpl.
  rewrite !commit_human, !commit_board, !commit_turn. split_and!; try done.
  rewrite commit_result_keep by (by rewrite commit_human).
  by rewrite commit_result_keep.
Qed.

Lemma step_safe_state e s : keeps_X e → safe_state s → safe_state (step e s).
Proof.
  intros He Hst. pose proof Hst as (Hh & _).
  destruct e as [idx| |m| |rnd].
  - unfold step, handle, clickCell.
    case_bool_decide as Hr; [by rewrite settle_no_update|].
    case_bool_decide as Ht; [by rewrite settle_no_update|].
    case_bool_decide as Hi; [by rewrite settle_no_update|].
    destruct Hst as (_ & Hres & Hnot & Hsafe).
    assert (result s = None) as Hr' by (by destruct (result s); [destruct Hr|]).
    assert (turn s = X) as Ht' by (destruct (decide (turn s = human s)); congruence).
    assert (board s !! idx = Some None) as Hi'
        by (by destruct (decide (board s !! idx = Some None)); [|destruct Hi]).
    rewrite settle_move by done.
    destruct (after_move_result s (<[idx := Some (human s)]> (board s)) (ai s))
      as (Er & Eb & Et & Eh).
    specialize (Hsafe Hr'). rewrite Ht' in Hsafe.
    rewrite bool_decide_eq_true_2 in Hsafe by done.
    inversion Hsafe as [b Hno Hnext|]; subst b.
    unfold safe_state. rewrite Er, Eb, Et, Eh, Hh. split_and!; auto.
    intros Hd. unfold ai, ai_of. rewrite Hh. simpl. auto.
  - unfold step, handle, restartRound. rewrite settle_reset.
    unfold safe_state, reset. simpl. split_and!; auto. intros _.
    apply safe_emptyBoard.
  - unfold step, handle, chooseSymbol.
    destruct m; [|by destruct He].
    rewrite Hh. rewrite bool_decide_eq_true_2 by done.
    by rewrite settle_no_update.
  - destruct (toggleSound_keeps s) as (Eh & Eb & Et & Er).
    unfold safe_state. rewrite Eh, Eb, Et, Er. done.
  - unfold step, handle, aiTimer.
    case_bool_decide as Hr; [by rewrite settle_no_update|].
    case_bool_decide as Ht; [by rewrite settle_no_update|].
    destruct Hst as (_ & Hres & Hnot & Hsafe).
    assert (result s = None) as Hr' by (by destruct (result s); [destruct Hr|]).
    assert (ai s = O) as Hai by (unfold ai, ai_of; by rewrite Hh).
    assert (turn s = O) as Ht'
        by (destruct (decide (turn s = ai s)); [congruence|by destruct Ht]).
    destruct (bestMove rnd (board s) (ai s) (human s)) as [[[|move|] b0]|] eqn:Hb;
      try (rewrite settle_no_update; unfold safe_state; by auto).
    rewrite (bestMove_index_null _ _ _ _ _ _ Hb).
    rewrite settle_move by done.
    destruct (after_move_result s (<[move := Some (ai s)]> (board s)) (human s))
      as (Er & Eb & Et & Eh).
    specialize (Hsafe Hr'). rewrite Ht' in Hsafe.
    rewrite bool_decide_eq_false_2 in Hsafe by done.
    rewrite Hai, Hh in Hb.
    inversion Hsafe as [|b Hno Hnext]; subst b.
    unfold safe_state. rewrite Er, Eb, Et, Eh, Hh, Hai.
    rewrite bool_decide_eq_true_2 by done. split_and!; eauto.
Qed.

Lemma run_safe_state evs s :
  Forall keeps_X evs → safe_state s → safe_state (run evs s).
Proof.
  intros Hevs. revert s. induction Hevs as [|e evs He _ IH]; intros s Hs; [done|].
  simpl. apply IH. by apply step_safe_state.
Qed.

Lemma round_start_safe_state s : round_start s → human s = X → safe_state s.
Proof.
  intros (Hb & Ht & Hr & _) Hh. unfold safe_state. rewrite Hb, Ht, Hr.
  split_and!; auto. intros _. apply safe_emptyBoard.
Qed.
End NeverLoses.

(** C4: in a round in which the human holds ['X'] and so moves first,
    whatever cells the human clicks and whichever entry of [moves] each
    draw of [bestMove] selects, the result is never ['human']: the
    result shown is the one of the board, and a completed line first in
    scan order is never the human's. *)
Theorem computer_never_loses_moving_second (s0 : State) (evs : list Event) :
  round_start s0 → human s0 = X → Forall keeps_X evs →
  result (run evs s0) ≠ Some RHuman
  ∧ result (run evs s0) = (derive (board (run evs s0)) X).2
  ∧ (∀ w, winnerInfo (board (run evs s0)) = Some w → symbol w = O).
Proof.
  intros Hs0 Hh Hevs.
  destruct (run_safe_state evs s0 Hevs (round_start_safe_state s0 Hs0 Hh))
    as (_ & Hres & Hnot & _).
  split_and!; [done..|].
  intros w Hw. rewrite Hres in Hnot. unfold derive in Hnot. rewrite Hw in Hnot.
  simpl in Hnot. destruct (symbol w); [|done].
  rewrite bool_decide_eq_true_2 in Hnot by done. by destruct Hnot.
Qed.

Lemma computer_never_loses_moving_second_witness :
  result (run lost_round init) ≠ Some RHuman
  ∧ result (run lost_round init) = (derive (board (run lost_round init)) X).2
  ∧ (∀ w, winnerInfo (board (run lost_round init)) = Some w → symbol w = O).
Proof.
  apply (computer_never_loses_moving_second init lost_round).
  - unfold round_start. split_and!; reflexivity.
  - reflexivity.
  - unfold lost_round, keeps_X. repeat constructor; discriminate.
Defined.

(** * Further properties of the component *)

(** ** Reachable states *)

Section WellFormed.
Implicit Types (s : State) (e : Event) (b : Board) (m : Mark).

Lemma count_mark_insert m m' b i :
  b !! i = Some None →
  count_mark m (<[i := Some m']> b)
  = (count_mark m b + (if bool_decide (m' = m) then 1 else 0))%nat.
Proof.
  revert i. induction b as [|c b IH]; intros [|i] Hi; simpl in *; try discriminate.
  - injection Hi as ->. cbn. repeat case_bool_decide; simplify_eq; lia.
  - rewrite (IH i Hi). lia.
Qed.

(** The fields of the state a move settles in, when nothing was counted
    yet. *)
Lemma after_move_fields s b' t' :
  scoredRef s = None →
  after_move s b' t'
  = mkState b' (human s) t' (derive b' (human s)).2 (derive b' (human s)).1
            (match (derive b' (human s)).2 with
             | Some r => tally r (score s)
             | None => score s
             end)
            (soundOn s) (derive b' (human s)).2.
Proof.
  intros Href. unfold after_move. rewrite Href.
  by destruct (derive b' (human s)) as [wl [r|]].
Qed.

(** With [scoredRef] holding the result, a re-run of the score effect
    counts nothing: the sound toggle changes [soundOn] only. *)
Lemma toggleSound_only_sound s :
  scoredRef s = result s → step ToggleSound s = with_sound (negb (soundOn s)) s.
Proof.
  unfold step, handle, toggleSound, settle, commit, with_sound.
  destruct s as [b h t [r|] wl sc so ref]; simpl; intros ->;
    repeat (case_bool_decide; simplify_eq/=); done.
Qed.

Lemma reset_well_formed s h : well_formed (reset h s).
Proof. unfold well_formed, reset. simpl. split_and!; reflexivity. Qed.

(** A mark of the party to move, put on a null cell, keeps the state
    well formed once the turn has passed. *)
Lemma move_well_formed s i t' :
  well_formed s → result s = None → board s !! i = Some None → t' ≠ turn s →
  well_formed (after_move s (<[i := Some (turn s)]> (board s)) t').
Proof.
  intros (Hlen & Hder & Href & Hcnt) Hr Hi Ht.
  rewrite after_move_fields by congruence.
  unfold well_formed. cbn [board human turn result winLine scoredRef]. split_and!.
  - by rewrite length_insert.
  - by destruct (derive (<[i := Some (turn s)]> (board s)) (human s)).
  - done.
  - rewrite !count_mark_insert by done. rewrite Hcnt.
    destruct (turn s), t'; try done; repeat case_bool_decide; simplify_eq; lia.
Qed.

Lemma step_well_formed e s : well_formed s → well_formed (step e s).
Proof.
  intros Hwf. destruct e as [idx| |m| |rnd].
  - unfold step, handle, clickCell.
    case_bool_decide as Hr; [by rewrite settle_no_update|].
    case_bool_decide as Ht; [by rewrite settle_no_update|].
    case_bool_decide as Hi; [by rewrite settle_no_update|].
    assert (result s = None) as Hr' by (by destruct (result s); [destruct Hr|]).
    assert (turn s = human s) as Ht' by (by destruct (decide (turn s = human s))).
    assert (board s !! idx = Some None) as Hi'
        by (by destruct (decide (board s !! idx = Some None)); [|destruct Hi]).
    rewrite settle_move by done. rewrite <- Ht'.
    apply move_well_formed; try done.
    unfold ai, ai_of. rewrite <- Ht'. by destruct (turn s).
  - unfold step, handle, restartRound. rewrite settle_reset. apply reset_well_formed.
  - unfold step, handle, chooseSymbol.
    case_bool_decide; [by rewrite settle_no_update|].
    rewrite settle_reset. apply reset_well_formed.
  - rewrite toggleSound_only_sound by apply Hwf. apply Hwf.
  - unfold step, handle, aiTimer.
    case_bool_decide as Hr; [by rewrite settle_no_update|].
    case_bool_decide as Ht; [by rewrite settle_no_update|].
    assert (result s = None) as Hr' by (by destruct (result s); [destruct Hr|]).
    assert (turn s = ai s) as Ht' by (by destruct (decide (turn s = ai s))).
    destruct (bestMove rnd (board s) (ai s) (human s)) as [[[|move|] b0]|] eqn:Hb;
      try by rewrite settle_no_update.
    pose proof (bestMove_index_null _ _ _ _ _ _ Hb) as Hnull. rewrite Hnull.
    rewrite settle_move by done. rewrite <- Ht'.
    apply move_well_formed; try done.
    rewrite Ht'. unfold ai, ai_of. by destruct (human s).
Qed.

Lemma init_well_formed : well_formed init.
Proof. unfold well_formed. simpl. split_and!; reflexivity. Qed.

Lemma run_well_formed evs s : well_formed s → well_formed (run evs s).
Proof.
  revert s. induction evs as [|e evs IH]; intros s Hs; [done|].
  simpl. apply IH. by apply step_well_formed.
Qed.

(** A result of [derive] names a line of the board. *)
Lemma derive_line b h wl r i :
  derive b h = (wl, r) → i ∈ wl →
  ∃ w, winnerInfo b = Some w ∧ wl = line w
       ∧ b !! i = Some (Some (symbol w))
       ∧ r = Some (if bool_decide (symbol w = h) then RHuman else RAi).
Proof.
  unfold derive. destruct (winnerInfo b) as [w|] eqn:Hw.
  - intros [= <- <-] Hi. exists w. split_and!; try done.
    apply scan_Some in Hw as (pre & l & post & _ & Hh & _).
    apply line_hit_Some in Hh as [Hu Hl]. rewrite Hl in Hi.
    destruct l as [[a b1] c]. simpl in Hi, Hu. destruct Hu as (Ha & Hb1 & Hc).
    apply elem_of_cons in Hi as [->|Hi]; [done|].
    apply elem_of_cons in Hi as [->|Hi]; [done|].
    apply elem_of_cons in Hi as [->|Hi]; [done|].
    by apply elem_of_nil in Hi.
  - destruct (isFull b); intros [= <- <-] Hi; by apply elem_of_nil in Hi.
Qed.
End WellFormed.

(** X8: in every state the component reaches from its first render, by
    any clicks, timer firings, restarts, side switches and sound toggles,
    the result and the winning line are the ones of the current board;
    so a highlighted cell lies on a completed line, holds the winner's
    mark, and the result says whose it is. *)
Theorem reachable_result_is_derived (evs : list Event) (idx : nat) :
  (winLine (run evs init), result (run evs init))
  = derive (board (run evs init)) (human (run evs init))
  ∧ (isWinning (run evs init) idx = true →
     ∃ w, winnerInfo (board (run evs init)) = Some w
          ∧ winLine (run evs init) = line w
          ∧ board (run evs init) !! idx = Some (Some (symbol w))
          ∧ result (run evs init)
            = Some (if bool_decide (symbol w = human (run evs init))
                    then RHuman else RAi)).
Proof.
  destruct (run_well_formed evs init init_well_formed) as (_ & Hder & _).
  split; [done|]. unfold isWinning. intros Hi%bool_decide_eq_true.
  by apply (derive_line _ _ _ _ _ (eq_sym Hder)).
Qed.

(** X9: in every reachable state the board has nine cells and the marks
    alternate with ['X'] first: ['X'] has as many marks as ['O'] when
    ['X'] is to move, and one more when ['O'] is. *)
Theorem reachable_marks_alternate (evs : list Event) :
  length (board (run evs init)) = 9%nat
  ∧ count_mark X (board (run evs init))
    = (count_mark O (board (run evs init))
       + (if bool_decide (turn (run evs init) = X) then 0 else 1))%nat.
Proof.
  destruct (run_well_formed evs init init_well_formed) as (Hlen & _ & _ & Hcnt).
  done.
Qed.

(** X14: in every reachable state the sound toggle changes [soundOn] and
    nothing else, although it re-runs the score effect; toggling twice
    gives the state back. *)
Theorem reachable_sound_toggle_only_flips_sound (evs : list Event) :
  step ToggleSound (run evs init)
  = with_sound (negb (soundOn (run evs init))) (run evs init)
  ∧ step ToggleSound (step ToggleSound (run evs init)) = run evs init.
Proof.
  pose proof (run_well_formed evs init init_well_formed) as Hwf.
  pose proof (step_well_formed ToggleSound _ Hwf) as Hwf'.
  destruct Hwf as (_ & _ & Href & _). destruct Hwf' as (_ & _ & Href' & _).
  rewrite (toggleSound_only_sound _ Href') at 1.
  rewrite (toggleSound_only_sound _ Href).
  split; [done|]. unfold with_sound. simpl.
  rewrite negb_involutive. by destruct (run evs init).
Qed.

(** ** Clicks, computer moves and the end of a round *)

Section Moves.
Implicit Types (s : State) (e : Event) (b : Board) (m : Mark).

(** On a board with a null cell, a draw in [[0, 1)] makes [bestMove]
    return the index of a null cell. *)
Lemma bestMove_some_index (rnd : Q) b (ai human : Mark) :
  (0 <= rnd)%Q → (rnd < 1)%Q → isFull b = false →
  ∃ i, bestMove rnd b ai human = Some (MIndex i, b) ∧ b !! i = Some None.
Proof.
  intros H0 H1 Hfull.
  destruct (bestMove_spec b ai human) as (r & Hinv & Hbm).
  assert (r_moves r ≠ []) as Hne.
  { intros Hm. apply (root_inv_moves_nil _ _ _ _ Hinv) in Hm. congruence. }
  destruct (pick_in_range rnd (r_moves r) H0 H1 Hne) as (i & Hpick & Hi).
  assert (bestMove rnd b ai human = Some (MIndex i, b)) as Hb.
  { rewrite Hbm, Hpick. by destruct (r_moves r). }
  exists i. split; [done|]. by eapply bestMove_index_null.
Qed.

Lemma after_move_winLine s b' t' :
  winLine (after_move s b' t') = (derive b' (human s)).1.
Proof.
  unfold after_move. destruct (derive b' (human s)) as [wl [r|]]; simpl;
    [case_bool_decide|]; done.
Qed.

(** What the sound toggle leaves alone in any state. *)
Lemma toggleSound_view s :
  board (step ToggleSound s) = board s
  ∧ human (step ToggleSound s) = human s
  ∧ turn (step ToggleSound s) = turn s
  ∧ result (step ToggleSound s) = result s
  ∧ winLine (step ToggleSound s) = winLine s.
Proof.
  unfold step, handle, toggleSound, settle, commit.
  destruct s as [b h t [r|] wl sc so ref]; simpl;
    repeat (case_bool_decide; simplify_eq/=); done.
Qed.

(** An event leaves the score alone or counts the result the state then
    shows, once. *)
Lemma step_score e s :
  score (step e s) = score s
  ∨ ∃ r, result (step e s) = Some r ∧ score (step e s) = tally r (score s).
Proof.
  destruct e as [idx| |m| |rnd].
  - unfold step, handle, clickCell.
    case_bool_decide as Hr; [rewrite settle_no_update; by left|].
    case_bool_decide; [rewrite settle_no_update; by left|].
    case_bool_decide; [rewrite settle_no_update; by left|].
    assert (result s = None) as Hr' by (by destruct (result s); [destruct Hr|]).
    rewrite settle_move by done. unfold after_move.
    destruct (derive _ (human s)) as [wl [r|]]; simpl; [|by left].
    case_bool_decide; simpl; [by left|right; eauto].
  - unfold step, handle, restartRound. rewrite settle_reset. by left.
  - unfold step, handle, chooseSymbol.
    case_bool_decide; [rewrite settle_no_update; by left|].
    rewrite settle_reset. by left.
  - unfold step, handle, toggleSound, settle, commit.
    destruct s as [b h t [r|] wl sc so ref]; simpl;
      repeat (case_bool_decide; simplify_eq/=); eauto.
  - unfold step, handle, aiTimer.
    case_bool_decide as Hr; [rewrite settle_no_update; by left|].
    case_bool_decide; [rewrite settle_no_update; by left|].
    assert (result s = None) as Hr' by (by destruct (result s); [destruct Hr|]).
    destruct (bestMove rnd (board s) (ai s) (human s)) as [[[|move|] b0]|];
      try (rewrite settle_no_update; by left).
    destruct (board s !! move) as [[m|]|].
    + rewrite settle_turn_only. by left.
    + rewrite settle_move by done. unfold after_move.
      destruct (derive _ (human s)) as [wl [r|]]; simpl; [|by left].
      case_bool_decide; simpl; [by left|right; eauto].
    + rewrite settle_turn_only. by left.
Qed.
End Moves.

(** X6: the button of a cell is disabled exactly when a click on it
    does nothing.  A click on a disabled cell leaves the state as it is;
    a click on an enabled cell puts the human's mark into that cell and no
    other, gives the turn to the computer, and the result and winning
    line become those of the new board. *)
Theorem click_acts_iff_enabled (s : State) (idx : nat) :
  if disabled s idx
  then step (Click idx) s = s
  else board s !! idx = Some None
       ∧ board (step (Click idx) s) = <[idx := Some (human s)]> (board s)
       ∧ turn (step (Click idx) s) = ai s
       ∧ human (step (Click idx) s) = human s
       ∧ (winLine (step (Click idx) s), result (step (Click idx) s))
         = derive (<[idx := Some (human s)]> (board s)) (human s).
Proof.
  unfold disabled, step, handle, clickCell.
  case_bool_decide as Hr; simpl; [apply settle_no_update|].
  case_bool_decide as Ht; simpl; [apply settle_no_update|].
  case_bool_decide as Hi; simpl; [apply settle_no_update|].
  assert (result s = None) as Hr' by (by destruct (result s); [destruct Hr|]).
  assert (board s !! idx = Some None) as Hi'
      by (by destruct (decide (board s !! idx = Some None)); [|destruct Hi]).
  rewrite settle_move by done.
  destruct (after_move_result s (<[idx := Some (human s)]> (board s)) (ai s))
    as (Er & Eb & Et & Eh).
  rewrite Er, Eb, Et, Eh, after_move_winLine. split_and!; try done.
  by destruct (derive _ _).
Qed.

(** X7: in every reachable state that awaits the computer, the timer
    callback, for any draw of [Math.random()] in [[0, 1)], puts the
    computer's mark into a null cell and gives the turn to the human. *)
Theorem computer_always_moves (evs : list Event) (rnd : Q) :
  (0 <= rnd)%Q → (rnd < 1)%Q →
  phase (run evs init) = AwaitingComputer →
  ∃ i, board (run evs init) !! i = Some None
       ∧ board (step (AiTimer rnd) (run evs init))
         = <[i := Some (ai (run evs init))]> (board (run evs init))
       ∧ turn (step (AiTimer rnd) (run evs init)) = human (run evs init).
Proof.
  intros H0 H1 Hph.
  destruct (run_well_formed evs init init_well_formed) as (_ & Hder & _).
  generalize dependent (run evs init). intros s Hph Hder.
  unfold phase in Hph. destruct (result s) as [r|] eqn:Hr; [discriminate|].
  case_bool_decide as Ht; [discriminate|].
  assert (turn s = ai s) as Ht'.
  { unfold ai, ai_of. destruct (turn s), (human s); done. }
  assert (isFull (board s) = false) as Hfull.
  { unfold derive in Hder. destruct (winnerInfo (board s)); [discriminate|].
    by destruct (isFull (board s)). }
  destruct (bestMove_some_index rnd (board s) (ai s) (human s) H0 H1 Hfull)
    as (i & Hb & Hi).
  exists i. split; [done|].
  unfold step, handle, aiTimer.
  rewrite (bool_decide_eq_false_2 (result s ≠ None)) by (rewrite Hr; auto).
  rewrite (bool_decide_eq_false_2 (turn s ≠ ai s)) by auto.
  rewrite Hb, Hi. rewrite settle_move by done.
  destruct (after_move_result s (<[i := Some (ai s)]> (board s)) (human s))
    as (_ & Eb & Et & _).
  by rewrite Eb, Et.
Qed.

Lemma computer_always_moves_witness :
  ∃ i, board (run [Click 4] init) !! i = Some None
       ∧ board (step (AiTimer (1 # 2)) (run [Click 4] init))
         = <[i := Some (ai (run [Click 4] init))]> (board (run [Click 4] init))
       ∧ turn (step (AiTimer (1 # 2)) (run [Click 4] init)) = human (run [Click 4] init).
Proof.
  apply (computer_always_moves [Click 4] (1 # 2)).
  - unfold Qle. simpl. lia.
  - unfold Qlt. simpl. lia.
  - reflexivity.
Defined.

(** X10: once a round has a result, no click, timer firing or sound
    toggle changes the board, the turn, the result or the winning line;
    only a restart or a switch of sides does. *)
Theorem round_over_is_frozen (s : State) (e : Event) :
  result s ≠ None → in_round e →
  board (step e s) = board s
  ∧ human (step e s) = human s
  ∧ turn (step e s) = turn s
  ∧ result (step e s) = result s
  ∧ winLine (step e s) = winLine s.
Proof.
  intros Hr He. destruct e as [idx| |m| |rnd]; try done.
  - unfold step, handle, clickCell.
    rewrite (bool_decide_eq_true_2 (result s ≠ None)) by done.
    by rewrite settle_no_update.
  - apply toggleSound_view.
  - unfold step, handle, aiTimer.
    rewrite (bool_decide_eq_true_2 (result s ≠ None)) by done.
    by rewrite settle_no_update.
Qed.

Lemma round_over_is_frozen_witness :
  board (step (Click 8) (run lost_round init)) = board (run lost_round init)
  ∧ human (step (Click 8) (run lost_round init)) = human (run lost_round init)
  ∧ turn (step (Click 8) (run lost_round init)) = turn (run lost_round init)
  ∧ result (step (Click 8) (run lost_round init)) = result (run lost_round init)
  ∧ winLine (step (Click 8) (run lost_round init)) = winLine (run lost_round init).
Proof.
  apply (round_over_is_frozen (run lost_round init) (Click 8)).
  - destruct lost_round_counted_once as [-> _]. discriminate.
  - exact I.
Defined.

(** X11: within a round a cell that holds a mark keeps it: no click,
    timer firing or sound toggle overwrites or clears a mark. *)
Theorem marks_are_never_overwritten (s : State) (e : Event) (i : nat) (m : Mark) :
  in_round e → board s !! i = Some (Some m) →
  board (step e s) !! i = Some (Some m).
Proof.
  intros He Hi. destruct e as [idx| |m'| |rnd]; try done.
  - unfold step, handle, clickCell.
    case_bool_decide as Hr; [by rewrite settle_no_update|].
    case_bool_decide; [by rewrite settle_no_update|].
    case_bool_decide as Hidx; [by rewrite settle_no_update|].
    assert (result s = None) as Hr' by (by destruct (result s); [destruct Hr|]).
    rewrite settle_move by done.
    destruct (after_move_result s (<[idx := Some (human s)]> (board s)) (ai s))
      as (_ & -> & _).
    rewrite list_lookup_insert_ne; [done|]. intros ->.
    destruct (decide (board s !! i = Some None)); [congruence|by destruct Hidx].
  - by destruct (toggleSound_view s) as (-> & _).
  - unfold step, handle, aiTimer.
    case_bool_decide as Hr; [by rewrite settle_no_update|].
    case_bool_decide; [by rewrite settle_no_update|].
    assert (result s = None) as Hr' by (by destruct (result s); [destruct Hr|]).
    destruct (bestMove rnd (board s) (ai s) (human s)) as [[[|move|] b0]|];
      try by rewrite settle_no_update.
    destruct (board s !! move) as [[m0|]|] eqn:Hmv.
    + by rewrite settle_turn_only.
    + rewrite settle_move by done.
      destruct (after_move_result s (<[move := Some (ai s)]> (board s)) (human s))
        as (_ & -> & _).
      rewrite list_lookup_insert_ne; [done|]. intros ->. congruence.
    + by rewrite settle_turn_only.
Qed.

Lemma marks_are_never_overwritten_witness :
  board (step (Click 4) centre_taken) !! 4%nat = Some (Some X).
Proof.
  apply (marks_are_never_overwritten centre_taken (Click 4) 4 X).
  - exact I.
  - reflexivity.
Defined.

(** X12: no event lowers a counter of the score, and an event that
    raises one raises exactly one of the three by one, in a state that
    then shows a result: [wins] only for ['human'], [losses] only for
    ['ai'], [draws] only for ['draw']. *)
Theorem score_moves_one_count_at_a_time (s : State) (e : Event) :
  score (step e s) = score s
  ∨ (result (step e s) = Some RHuman
     ∧ score (step e s) = mkScore (wins (score s) + 1) (losses (score s)) (draws (score s)))
  ∨ (result (step e s) = Some RAi
     ∧ score (step e s) = mkScore (wins (score s)) (losses (score s) + 1) (draws (score s)))
  ∨ (result (step e s) = Some RDraw
     ∧ score (step e s) = mkScore (wins (score s)) (losses (score s)) (draws (score s) + 1)).
Proof.
  destruct (step_score e s) as [Hs|([| |] & Hr & Hs)]; auto.
Qed.

(** X13: as long as the human keeps ['X'], over any number of rounds,
    the counter [wins] stays at zero. *)
Theorem wins_stay_zero_while_human_holds_X (evs : list Event) :
  Forall keeps_X evs → wins (score (run evs init)) = 0.
Proof.
  intros Hevs.
  assert (safe_state init ∧ wins (score init) = 0) as Hinit.
  { split; [|done]. apply round_start_safe_state; [|done].
    unfold round_start. split_and!; reflexivity. }
  revert Hinit. generalize init.
  induction Hevs as [|e evs He _ IH]; intros s [Hsafe Hw]; [done|].
  simpl. apply IH. pose proof (step_safe_state e s He Hsafe) as Hsafe'.
  split; [done|].
  destruct Hsafe' as (_ & _ & Hnot & _).
  destruct (step_score e s) as [->|(r & Hr & ->)]; [done|].
  destruct r; simpl; [congruence|done..].
Qed.

Lemma wins_stay_zero_while_human_holds_X_witness :
  wins (score (run lost_round init)) = 0.
Proof.
  apply (wins_stay_zero_while_human_holds_X lost_round).
  unfold lost_round, keeps_X. repeat constructor; discriminate.
Defined.

(** ** The values of the search *)

Section Values.
Implicit Types (board b : Board) (ai human m : Mark) (depth z : Z) (isMax : bool).

Lemma num_max_cases (a x : num) :
  num_leb a (num_max a x) = true ∧ num_leb x (num_max a x) = true
  ∧ (num_max a x = a ∨ num_max a x = x).
Proof.
  unfold num_max. destruct (num_leb a x) eqn:E.
  - split_and!; auto using num_leb_refl.
  - split_and!; auto using num_leb_refl.
    destruct (num_leb_total a x); congruence.
Qed.

Lemma num_min_cases (a x : num) :
  num_leb (num_min a x) a = true ∧ num_leb (num_min a x) x = true
  ∧ (num_min a x = a ∨ num_min a x = x).
Proof.
  unfold num_min. destruct (num_leb a x) eqn:E.
  - split_and!; auto using num_leb_refl.
  - split_and!; auto using num_leb_refl.
    destruct (num_leb_total a x); congruence.
Qed.

(** The maximising loop ends with the largest value it met. *)
Lemma fold_cells_max f board idx (best : num) :
  num_leb best (fold_cells f num_max board idx best) = true
  ∧ (∀ i, i ∈ idx → board !! i = Some None →
          num_leb (f i) (fold_cells f num_max board idx best) = true)
  ∧ (fold_cells f num_max board idx best = best
     ∨ ∃ i, i ∈ idx ∧ board !! i = Some None
            ∧ fold_cells f num_max board idx best = f i).
Proof.
  revert best. unfold fold_cells.
  induction idx as [|i idx IH]; intros best; simpl.
  - split_and!; [apply num_leb_refl| |by left].
    intros i Hi. by apply elem_of_nil in Hi.
  - assert (∀ best', 
      num_leb best best' = true →
      (board !! i = Some None → num_leb (f i) best' = true) →
      (best' = best ∨ board !! i = Some None ∧ best' = f i) →
      let v := fold_left
                 (λ acc i0, match board !! i0 with
                            | Some None => num_max acc (f i0)
                            | _ => acc
                            end) idx best' in
      num_leb best v = true
      ∧ (∀ j, j ∈ i :: idx → board !! j = Some None → num_leb (f j) v = true)
      ∧ (v = best ∨ ∃ j, j ∈ i :: idx ∧ board !! j = Some None ∧ v = f j)) as Hstep.
    { intros best' Hb Hfi Hor v. destruct (IH best') as (H1 & H2 & H3). fold v in H1, H2, H3.
      split_and!.
      - by eapply num_leb_trans.
      - intros j [->|Hj]%elem_of_cons Hn; [|by apply H2].
        eapply num_leb_trans; [by apply Hfi|done].
      - destruct H3 as [->|(j & Hj & Hn & ->)].
        + destruct Hor as [->|[Hn ->]]; [by left|].
          right. exists i. split_and!; [apply list_elem_of_here|done..].
        + right. exists j. split_and!; [by apply list_elem_of_further|done..]. }
    destruct (board !! i) as [[m|]|] eqn:Hi.
    + apply Hstep; [apply num_leb_refl|done|by left].
    + destruct (num_max_cases best (f i)) as (H1 & H2 & [H3|H3]);
        apply Hstep; auto.
    + apply Hstep; [apply num_leb_refl|done|by left].
Qed.

(** The minimising loop ends with the smallest value it met. *)
Lemma fold_cells_min f board idx (best : num) :
  num_leb (fold_cells f num_min board idx best) best = true
  ∧ (∀ i, i ∈ idx → board !! i = Some None →
          num_leb (fold_cells f num_min board idx best) (f i) = true)
  ∧ (fold_cells f num_min board idx best = best
     ∨ ∃ i, i ∈ idx ∧ board !! i = Some None
            ∧ fold_cells f num_min board idx best = f i).
Proof.
  revert best. unfold fold_cells.
  induction idx as [|i idx IH]; intros best; simpl.
  - split_and!; [apply num_leb_refl| |by left].
    intros i Hi. by apply elem_of_nil in Hi.
  - assert (∀ best', 
      num_leb best' best = true →
      (board !! i = Some None → num_leb best' (f i) = true) →
      (best' = best ∨ board !! i = Some None ∧ best' = f i) →
      let v := fold_left
                 (λ acc i0, match board !! i0 with
                            | Some None => num_min acc (f i0)
                            | _ => acc
                            end) idx best' in
      num_leb v best = true
      ∧ (∀ j, j ∈ i :: idx → board !! j = Some None → num_leb v (f j) = true)
      ∧ (v = best ∨ ∃ j, j ∈ i :: idx ∧ board !! j = Some None ∧ v = f j)) as Hstep.
    { intros best' Hb Hfi Hor v. destruct (IH best') as (H1 & H2 & H3). fold v in H1, H2, H3.
      split_and!.
      - by eapply num_leb_trans.
      - intros j [->|Hj]%elem_of_cons Hn; [|by apply H2].
        eapply num_leb_trans; [done|by apply Hfi].
      - destruct H3 as [->|(j & Hj & Hn & ->)].
        + destruct Hor as [->|[Hn ->]]; [by left|].
          right. exists i. split_and!; [apply list_elem_of_here|done..].
        + right. exists j. split_and!; [by apply list_elem_of_further|done..]. }
    destruct (board !! i) as [[m|]|] eqn:Hi.
    + apply Hstep; [apply num_leb_refl|done|by left].
    + destruct (num_min_cases best (f i)) as (H1 & H2 & [H3|H3]);
        apply Hstep; auto.
    + apply Hstep; [apply num_leb_refl|done|by left].
Qed.

(** The value of a call, as an integer. *)
Lemma val_fin board depth isMax ai human :
  ∃ z, val (minimax board depth isMax ai human) = Fin z
       ∧ minimax board depth isMax ai human = Some (Fin z, board).
Proof.
  destruct (minimax_total board depth isMax ai human) as [z Hz].
  exists z. by rewrite Hz.
Qed.

(** A ply on a board that is not terminal returns the value of one of
    its children, and no child is better for the ply. *)
Lemma ply_value board depth isMax ai human :
  winnerInfo board = None → isFull board = false →
  ∃ z, val (minimax board depth isMax ai human) = Fin z
       ∧ (∃ i, board !! i = Some None
               ∧ val (minimax (child board isMax ai human i) (depth + 1) (negb isMax)
                        ai human) = Fin z)
       ∧ (∀ j zj, board !! j = Some None →
             val (minimax (child board isMax ai human j) (depth + 1) (negb isMax)
                    ai human) = Fin zj →
             at_least_as_good isMax z zj).
Proof.
  intros Hw Hf. rewrite (minimax_step _ _ _ _ _ Hw Hf). simpl.
  apply isFull_false in Hf as [i0 Hi0].
  set (f := fun i => val (minimax (<[i := Some (if isMax then ai else human)]> board)
                           (depth + 1) (negb isMax) ai human)).
  destruct (val_fin (child board isMax ai human i0) (depth + 1) (negb isMax) ai human)
    as (z0 & Hz0 & _).
  destruct isMax.
  - destruct (fold_cells_max f board (seq 0 (length board)) NegInf) as (_ & Hub & Hatt).
    set (v := fold_cells f num_max board (seq 0 (length board)) NegInf) in *.
    pose proof (Hub i0 (null_in_seq _ _ Hi0) Hi0) as Hle0.
    unfold f in Hle0 at 1. unfold child in Hz0. rewrite Hz0 in Hle0.
    destruct Hatt as [Hv|(i & _ & Hi & Hv)];
      [rewrite Hv in Hle0; discriminate|].
    destruct (val_fin (child board true ai human i) (depth + 1) false ai human)
      as (z & Hz & _).
    exists z. assert (v = Fin z) as Hvz by (rewrite Hv; apply Hz).
    split_and!; [done|by exists i|].
    intros j zj Hj Hzj. pose proof (Hub j (null_in_seq _ _ Hj) Hj) as Hle.
    unfold f in Hle at 1. unfold child in Hzj. rewrite Hzj, Hvz in Hle.
    by apply Z.leb_le in Hle.
  - destruct (fold_cells_min f board (seq 0 (length board)) PosInf) as (_ & Hlb & Hatt).
    set (v := fold_cells f num_min board (seq 0 (length board)) PosInf) in *.
    pose proof (Hlb i0 (null_in_seq _ _ Hi0) Hi0) as Hle0.
    unfold f in Hle0 at 1. unfold child in Hz0. rewrite Hz0 in Hle0.
    destruct Hatt as [Hv|(i & _ & Hi & Hv)];
      [rewrite Hv in Hle0; discriminate|].
    destruct (val_fin (child board false ai human i) (depth + 1) true ai human)
      as (z & Hz & _).
    exists z. assert (v = Fin z) as Hvz by (rewrite Hv; apply Hz).
    split_and!; [done|by exists i|].
    intros j zj Hj Hzj. pose proof (Hlb j (null_in_seq _ _ Hj) Hj) as Hle.
    unfold f in Hle at 1. unfold child in Hzj. rewrite Hzj, Hvz in Hle.
    by apply Z.leb_le in Hle.
Qed.

(** At depth [depth >= 0], on a board whose null cells do not take the
    depth beyond 10, the value lies between [depth - 10] and
    [10 - depth]. *)
Lemma val_range board depth isMax ai human :
  0 <= depth → depth + Z.of_nat (count_null board) <= 10 →
  ∃ z, val (minimax board depth isMax ai human) = Fin z
       ∧ depth - 10 <= z <= 10 - depth.
Proof.
  remember (count_null board) as k eqn:Hk.
  revert board depth isMax Hk.
  induction k as [k IH] using lt_wf_ind. intros board depth isMax Hk H0 H10.
  destruct (winnerInfo board) as [w|] eqn:Hw.
  { rewrite (minimax_winner _ _ _ _ _ _ Hw). simpl.
    case_bool_decide; eexists; split; try done; lia. }
  destruct (isFull board) eqn:Hf.
  { rewrite (minimax_draw _ _ _ _ _ Hw Hf). simpl. eexists; split; [done|lia]. }
  destruct (ply_value board depth isMax ai human Hw Hf) as (z & Hz & (i & Hi & Hzi) & _).
  exists z. split; [done|].
  pose proof (count_null_insert board i (if isMax then ai else human) Hi) as Hc.
  assert (∃ z', val (minimax (child board isMax ai human i) (depth + 1) (negb isMax)
                       ai human) = Fin z'
                ∧ depth + 1 - 10 <= z' <= 10 - (depth + 1)) as (z' & Hz' & Hr).
  { apply (IH (count_null (child board isMax ai human i))); unfold child;
      try done; lia. }
  rewrite Hzi in Hz'. injection Hz' as <-. lia.
Qed.

End Values.

(** X1: on a board that is not terminal, a ply of [minimax] returns the
    value of one of its children (the board with the mover's mark on a
    null cell, evaluated one level deeper, for the other party), and no
    child has a better value for the mover: none is larger on the
    maximising ply, none smaller on the minimising ply. *)
Theorem minimax_ply_returns_best_child
    (board : Board) (depth : Z) (isMax : bool) (ai human : Mark) :
  winnerInfo board = None → isFull board = false →
  ∃ z, minimax board depth isMax ai human = Some (Fin z, board)
       ∧ (∃ i, board !! i = Some None
               ∧ minimax (child board isMax ai human i) (depth + 1) (negb isMax) ai human
                 = Some (Fin z, child board isMax ai human i))
       ∧ (∀ j, board !! j = Some None →
             ∃ zj, minimax (child board isMax ai human j) (depth + 1) (negb isMax)
                     ai human
                   = Some (Fin zj, child board isMax ai human j)
                   ∧ at_least_as_good isMax z zj).
Proof.
  intros Hw Hf.
  destruct (ply_value board depth isMax ai human Hw Hf) as (z & Hz & (i & Hi & Hzi) & Hbest).
  exists z. split_and!.
  - destruct (val_fin board depth isMax ai human) as (z' & Hz' & ->). congruence.
  - exists i. split; [done|].
    destruct (val_fin (child board isMax ai human i) (depth + 1) (negb isMax) ai human)
      as (z' & Hz' & ->). congruence.
  - intros j Hj.
    destruct (val_fin (child board isMax ai human j) (depth + 1) (negb isMax) ai human)
      as (zj & Hzj & ->).
    exists zj. split; [done|]. by apply (Hbest j zj).
Qed.

Lemma minimax_ply_returns_best_child_witness :
  ∃ z, minimax two_in_a_row 0 true O X = Some (Fin z, two_in_a_row).
Proof.
  destruct (minimax_ply_returns_best_child two_in_a_row 0 true O X) as (z & Hz & _).
  - reflexivity.
  - reflexivity.
  - by exists z.
Defined.

(** X2: a call of [minimax] at depth [depth >= 0] on a board with at most
    [10 - depth] null cells (every call [bestMove] causes on a board of
    nine cells) returns a score between [depth - 10] and [10 - depth]. *)
Theorem minimax_score_range
    (board : Board) (depth : Z) (isMax : bool) (ai human : Mark) :
  0 <= depth → depth + Z.of_nat (count_null board) <= 10 →
  ∃ z, minimax board depth isMax ai human = Some (Fin z, board)
       ∧ depth - 10 <= z <= 10 - depth.
Proof.
  intros H0 H10.
  destruct (val_range board depth isMax ai human H0 H10) as (z & Hz & Hr).
  destruct (val_fin board depth isMax ai human) as (z' & Hz' & ->).
  exists z'. split; [done|]. congruence.
Qed.

Lemma minimax_score_range_witness :
  ∃ z, minimax emptyBoard 0 true O X = Some (Fin z, emptyBoard)
       ∧ 0 - 10 <= z <= 10 - 0.
Proof.
  apply (minimax_score_range emptyBoard 0 true O X).
  - lia.
  - simpl. lia.
Defined.



(** ** Threats *)

Section Threats.
Implicit Types (board b : Board) (ai human m : Mark) (l : nat * nat * nat).

(** A mark on a null cell leaves every completed line completed. *)
Lemma uniform_insert_null b l m j m' :
  b !! j = Some None → uniform b l m → uniform (<[j := Some m']> b) l m.
Proof.
  intros Hj. destruct l as [[a b1] c]. unfold uniform.
  intros (Ha & Hb & Hc).
  rewrite !list_lookup_insert_ne by (intros ->; congruence). done.
Qed.

(** A line completed by [m] after another mark was written was
    completed before. *)
Lemma uniform_insert_other b l m j m' :
  m ≠ m' → uniform (<[j := Some m']> b) l m → uniform b l m.
Proof.
  intros Hne. destruct l as [[a b1] c]. unfold uniform.
  rewrite !list_lookup_insert. intros (Ha & Hb & Hc).
  repeat case_decide; simplify_eq; done.
Qed.

Lemma completes_insert_null b m j m' :
  b !! j = Some None → completes b m → completes (<[j := Some m']> b) m.
Proof.
  intros Hj (l & Hl & Hu). exists l. split; [done|]. by apply uniform_insert_null.
Qed.

Lemma completes_insert_other b m j m' :
  m ≠ m' → completes (<[j := Some m']> b) m → completes b m.
Proof.
  intros Hne (l & Hl & Hu). exists l. split; [done|].
  by eapply uniform_insert_other.
Qed.

(** On a board without a completed line, a mark [m] can only complete a
    line of [m]. *)
Lemma winnerInfo_after_mark b j m w :
  winnerInfo b = None → winnerInfo (<[j := Some m]> b) = Some w → symbol w = m.
Proof.
  intros Hn Hw. apply winnerInfo_Some_completes in Hw.
  destruct (decide (symbol w = m)) as [|Hne]; [done|].
  apply completes_insert_other in Hw; [|done].
  rewrite winnerInfo_None in Hn. by destruct (Hn (symbol w)).
Qed.

(** [bestMove] and the plies of [minimax] evaluate a board one mark
    after a board without a completed line: on such a board the two
    marks never both hold a completed line. *)
Lemma search_board_has_one_winner b j m ai human :
  ai ≠ human → winnerInfo b = None →
  ¬ (completes (<[j := Some m]> b) ai ∧ completes (<[j := Some m]> b) human).
Proof.
  intros Hne Hn [Ha Hh]. rewrite winnerInfo_None in Hn.
  destruct (decide (ai = m)) as [->|Hai].
  - apply completes_insert_other in Hh; [|by apply not_eq_sym].
    by destruct (Hn human).
  - apply completes_insert_other in Ha; [|done]. by destruct (Hn ai).
Qed.

(** If a mark on [j] completes no line, and then a mark [m] on [k]
    does, the line is one of [m]. *)
Lemma winnerInfo_second_mark b j k m m' w :
  winnerInfo (<[j := Some m']> b) = None →
  winnerInfo (<[k := Some m]> (<[j := Some m']> b)) = Some w → symbol w = m.
Proof. apply winnerInfo_after_mark. Qed.

(** The value at depth 1, maximising, of a board on which no line is
    completed is at least -8. *)
Lemma val_quiet_at_depth_1 b ai human :
  (count_null b ≤ 9)%nat → winnerInfo b = None →
  ∃ z, val (minimax b 1 true ai human) = Fin z ∧ -8 <= z.
Proof.
  intros Hc Hw. destruct (isFull b) eqn:Hf.
  { rewrite (minimax_draw _ _ _ _ _ Hw Hf). simpl. eexists; split; [done|lia]. }
  destruct (ply_value b 1 true ai human Hw Hf) as (z & Hz & (i & Hi & Hzi) & _).
  exists z. split; [done|].
  pose proof (count_null_insert b i ai Hi) as Hci.
  assert (∃ z', val (minimax (child b true ai human i) (1 + 1) (negb true) ai human)
                = Fin z' ∧ 1 + 1 - 10 <= z' <= 10 - (1 + 1)) as (z' & Hz' & Hr).
  { apply val_range; unfold child; lia. }
  rewrite Hzi in Hz'. simplify_eq. lia.
Qed.
End Threats.

(** X4: on a board without a completed line where the computer has no
    win in one move and the human threatens to complete a line at
    exactly one null cell [t], [bestMove] returns [t], for every draw: a
    single threat is always blocked. *)
Theorem bestMove_blocks_single_threat
    (rnd : Q) (board : Board) (ai human : Mark) (t : nat) :
  (0 <= rnd)%Q → (rnd < 1)%Q → (count_null board ≤ 11)%nat →
  ai ≠ human →
  winnerInfo board = None →
  (∀ j, board !! j = Some None → winnerInfo (<[j := Some ai]> board) = None) →
  board !! t = Some None →
  winnerInfo (<[t := Some human]> board) ≠ None →
  (∀ j, board !! j = Some None → j ≠ t →
        winnerInfo (<[j := Some human]> board) = None) →
  bestMove rnd board ai human = Some (MIndex t, board).
Proof.
  intros H0 H1 Hc Hne Hw Hnowin Ht Hthreat Honly.
  (* any other cell loses at once: its score is at most -9 *)
  assert (∀ j, board !! j = Some None → j ≠ t →
            ∃ z, score_at board ai human j = Fin z ∧ z <= -9) as Hother.
  { intros j Hj Hjt. unfold score_at.
    pose proof (Hnowin j Hj) as Hwj.
    assert (<[j := Some ai]> board !! t = Some None) as Htj
        by (by rewrite list_lookup_insert_ne).
    assert (isFull (<[j := Some ai]> board) = false) as Hfj
        by (apply isFull_false; eauto).
    destruct (ply_value (<[j := Some ai]> board) 0 false ai human Hwj Hfj)
      as (z & Hz & _ & Hbest).
    exists z. split; [done|].
    destruct (winnerInfo (<[t := Some human]> board)) as [w|] eqn:Hwt; [|done].
    pose proof (winnerInfo_after_mark _ _ _ _ Hw Hwt) as Hsym.
    apply winnerInfo_Some_completes in Hwt. rewrite Hsym in Hwt.
    assert (completes (<[t := Some human]> (<[j := Some ai]> board)) human) as Hcomp.
    { rewrite list_insert_insert_ne by done. apply completes_insert_null; [|done].
      by rewrite list_lookup_insert_ne. }
    assert (¬ completes (<[t := Some human]> (<[j := Some ai]> board)) ai) as Hnai.
    { intros Hai. apply completes_insert_other in Hai; [|done].
      rewrite winnerInfo_None in Hwj. by destruct (Hwj ai). }
    destruct (winnerInfo_sole _ human ai (not_eq_sym Hne) Hcomp Hnai) as (w' & Hw' & Hs').
    specialize (Hbest t (1 - 10) Htj). unfold child in Hbest. simpl in Hbest.
    rewrite (minimax_winner _ _ _ _ _ _ Hw') in Hbest. simpl in Hbest.
    rewrite bool_decide_eq_false_2 in Hbest by congruence.
    specialize (Hbest eq_refl). unfold at_least_as_good in Hbest. lia. }
  (* the blocking cell does not: its score is at least -8 *)
  assert (∃ z, score_at board ai human t = Fin z ∧ -8 <= z) as (zt & Hzt & Hzt8).
  { unfold score_at. pose proof (Hnowin t Ht) as Hwt.
    destruct (isFull (<[t := Some ai]> board)) eqn:Hft.
    { rewrite (minimax_draw _ _ _ _ _ Hwt Hft). simpl. eexists; split; [done|lia]. }
    destruct (ply_value (<[t := Some ai]> board) 0 false ai human Hwt Hft)
      as (z & Hz & (k & Hk & Hzk) & _).
    exists z. split; [done|]. unfold child in Hzk. simpl in Hzk.
    assert (k ≠ t) as Hkt.
    { intros ->. rewrite list_lookup_insert_eq in Hk; [done|].
      by eapply lookup_lt_Some. }
    assert (board !! k = Some None) as Hkb by (by rewrite list_lookup_insert_ne in Hk).
    assert (winnerInfo (<[k := Some human]> (<[t := Some ai]> board)) = None) as Hwk.
    { destruct (winnerInfo (<[k := Some human]> (<[t := Some ai]> board)))
        as [w2|] eqn:Hw2; [|done].
      pose proof (winnerInfo_second_mark _ _ _ _ _ _ Hwt Hw2) as Hs2.
      apply winnerInfo_Some_completes in Hw2. rewrite Hs2 in Hw2.
      rewrite list_insert_insert_ne in Hw2 by done.
      apply completes_insert_other in Hw2; [|by apply not_eq_sym].
      pose proof (Honly k Hkb Hkt) as Hno. rewrite winnerInfo_None in Hno.
      by destruct (Hno human). }
    pose proof (count_null_insert board t ai Ht) as Hc1.
    pose proof (count_null_insert _ k human Hk) as Hc2.
    destruct (val_quiet_at_depth_1 (<[k := Some human]> (<[t := Some ai]> board))
                ai human) as (z' & Hz' & Hz8); [lia|done|].
    change (0 + 1) with 1 in Hzk. rewrite Hzk in Hz'. simplify_eq. done. }
  (* so the only entry of [moves] is [t] *)
  destruct (bestMove_spec board ai human) as (r & Hinv & Hbm).
  pose proof Hinv as (_ & Hin & Hle & _ & _).
  assert (r_moves r ≠ []) as Hnil.
  { intros Hm. apply (root_inv_moves_nil _ _ _ _ Hinv) in Hm.
    rewrite isFull_true in Hm. by destruct (Hm t). }
  destruct (pick_in_range rnd (r_moves r) H0 H1 Hnil) as (i & Hpick & Hi).
  destruct (Hin i Hi) as (_ & Hnull & Hscore).
  assert (i = t) as ->.
  { destruct (decide (i = t)) as [|Hit]; [done|].
    destruct (Hother i Hnull Hit) as (zi & Hzi & Hzi9).
    pose proof (Hle t (null_in_seq _ _ Ht) Ht) as Hcmp.
    rewrite Hzt, <- Hscore, Hzi in Hcmp. simpl in Hcmp.
    apply Z.leb_le in Hcmp. lia. }
  rewrite Hbm, Hpick. by destruct (r_moves r).
Qed.

Lemma bestMove_blocks_single_threat_witness :
  bestMove (1 # 2) top_row_threat O X = Some (MIndex 2, top_row_threat).
Proof.
  apply (bestMove_blocks_single_threat (1 # 2) top_row_threat O X 2).
  - unfold Qle. simpl. lia.
  - unfold Qlt. simpl. lia.
  - simpl. lia.
  - discriminate.
  - reflexivity.
  - intros j Hj.
    do 9 (destruct j as [|j]; [first [discriminate Hj|reflexivity]|]).
    discriminate Hj.
  - reflexivity.
  - discriminate.
  - intros j Hj Hjt.
    do 9 (destruct j as [|j]; [first [discriminate Hj|reflexivity|by destruct Hjt]|]).
    discriminate Hj.
Defined.

(** ** The computer never loses when it moves first *)

Section MovesFirst.
Implicit Types (s : State) (b : Board) (e : Event) (h : Mark).

Lemma safe_for_sound h n t b : safe_for h n t b = true → SafeFor h t b.
Proof.
  revert t b. induction n as [|n IH]; intros t b; [discriminate|].
  simpl. destruct t.
  - rewrite forallb_forall. intros Hall.
    assert (∀ i, b !! i = Some None →
              match (derive (<[i := Some h]> b) h).2 with
              | Some RHuman => false
              | Some _ => true
              | None => safe_for h n false (<[i := Some h]> b)
              end = true) as Hok.
    { intros i Hi. specialize (Hall i). rewrite Hi in Hall. apply Hall.
      apply list_elem_of_In. by apply null_in_seq. }
    constructor.
    + intros i Hi. specialize (Hok i Hi).
      by destruct ((derive (<[i := Some h]> b) h).2) as [[| |]|].
    + intros i Hi Hd. specialize (Hok i Hi). rewrite Hd in Hok. by apply IH.
  - destruct (root_loop b (ai_of h) h) as [r|] eqn:Hr; [|discriminate].
    rewrite forallb_forall. intros Hall.
    assert (∀ rnd i b0, bestMove rnd b (ai_of h) h = Some (MIndex i, b0) →
              match (derive (<[i := Some (ai_of h)]> b) h).2 with
              | Some RHuman => false
              | Some _ => true
              | None => safe_for h n true (<[i := Some (ai_of h)]> b)
              end = true) as Hok.
    { intros rnd i b0 Hb. apply Hall. apply list_elem_of_In.
      unfold bestMove in Hb. rewrite Hr in Hb.
      destruct (r_moves r) as [|j moves] eqn:E; [discriminate|].
      injection Hb as Hp _. by apply pick_elem in Hp. }
    constructor.
    + intros rnd i b0 Hb. specialize (Hok rnd i b0 Hb).
      by destruct ((derive (<[i := Some (ai_of h)]> b) h).2) as [[| |]|].
    + intros rnd i b0 Hb Hd. specialize (Hok rnd i b0 Hb). rewrite Hd in Hok.
      by apply IH.
Qed.

(** The whole game from the empty board, the computer moving first. *)
Lemma safe_for_O_emptyBoard : SafeFor O false emptyBoard.
Proof. apply (safe_for_sound O 10). vm_compute. reflexivity. Qed.

Lemma step_safe_state_for h e s :
  e ≠ Choose (ai_of h) →
  SafeFor h (bool_decide (X = h)) emptyBoard →
  safe_state_for h s → safe_state_for h (step e s).
Proof.
  intros He Hempty Hst. pose proof Hst as (Hh & _).
  destruct e as [idx| |m| |rnd]; [clear Hempty| |clear Hempty..].
  - unfold step, handle, clickCell.
    case_bool_decide as Hr; [by rewrite settle_no_update|].
    case_bool_decide as Ht; [by rewrite settle_no_update|].
    case_bool_decide as Hi; [by rewrite settle_no_update|].
    destruct Hst as (_ & Hres & Hnot & Hsafe).
    assert (result s = None) as Hr' by (by destruct (result s); [destruct Hr|]).
    assert (turn s = h) as Ht' by (destruct (decide (turn s = human s)); congruence).
    assert (board s !! idx = Some None) as Hi'
        by (by destruct (decide (board s !! idx = Some None)); [|destruct Hi]).
    rewrite settle_move by done.
    destruct (after_move_result s (<[idx := Some (human s)]> (board s)) (ai s))
      as (Er & Eb & Et & Eh).
    specialize (Hsafe Hr'). rewrite Ht' in Hsafe.
    rewrite bool_decide_eq_true_2 in Hsafe by done.
    inversion Hsafe as [b Hno Hnext|]; subst b.
    unfold safe_state_for. rewrite Er, Eb, Et, Eh, Hh. split_and!; auto.
    intros Hd. unfold ai. rewrite Hh.
    rewrite bool_decide_eq_false_2 by (by destruct h). auto.
  - unfold step, handle, restartRound. rewrite settle_reset.
    unfold safe_state_for, reset. simpl. split_and!; auto.
  - unfold step, handle, chooseSymbol.
    case_bool_decide as Hm; [by rewrite settle_no_update|].
    destruct He. f_equal. rewrite Hh in Hm. by destruct m, h.
  - destruct (toggleSound_keeps s) as (Eh & Eb & Et & Er).
    unfold safe_state_for. rewrite Eh, Eb, Et, Er. done.
  - unfold step, handle, aiTimer.
    case_bool_decide as Hr; [by rewrite settle_no_update|].
    case_bool_decide as Ht; [by rewrite settle_no_update|].
    destruct Hst as (_ & Hres & Hnot & Hsafe).
    assert (result s = None) as Hr' by (by destruct (result s); [destruct Hr|]).
    assert (ai s = ai_of h) as Hai by (unfold ai; by rewrite Hh).
    assert (turn s = ai_of h) as Ht'
        by (destruct (decide (turn s = ai s)); [congruence|by destruct Ht]).
    destruct (bestMove rnd (board s) (ai s) (human s)) as [[[|move|] b0]|] eqn:Hb;
      try (rewrite settle_no_update; unfold safe_state_for; by auto).
    rewrite (bestMove_index_null _ _ _ _ _ _ Hb).
    rewrite settle_move by done.
    destruct (after_move_result s (<[move := Some (ai s)]> (board s)) (human s))
      as (Er & Eb & Et & Eh).
    specialize (Hsafe Hr'). rewrite Ht' in Hsafe.
    rewrite bool_decide_eq_false_2 in Hsafe by (by destruct h).
    rewrite Hai, Hh in Hb.
    inversion Hsafe as [|b Hno Hnext]; subst b.
    unfold safe_state_for. rewrite Er, Eb, Et, Eh, Hh, Hai.
    rewrite bool_decide_eq_true_2 by done. split_and!; eauto.
Qed.
End MovesFirst.

(** X5: in a round in which the human holds ['O'], so that the computer
    moves first, whatever cells the human clicks and whichever entry of
    [moves] each draw of [bestMove] selects, the result is never
    ['human']: the result shown is the one of the board, and a completed
    line first in scan order is never the human's. *)
Theorem computer_never_loses_moving_first (s0 : State) (evs : list Event) :
  round_start s0 → human s0 = O → Forall keeps_O evs →
  result (run evs s0) ≠ Some RHuman
  ∧ result (run evs s0) = (derive (board (run evs s0)) O).2
  ∧ (∀ w, winnerInfo (board (run evs s0)) = Some w → symbol w = X).
Proof.
  intros (Hb & Ht & Hr & _) Hh Hevs.
  assert (safe_state_for O s0) as Hs0.
  { unfold safe_state_for. rewrite Hb, Ht, Hr. split_and!; auto.
    intros _. apply safe_for_O_emptyBoard. }
  assert (safe_state_for O (run evs s0)) as (_ & Hres & Hnot & _).
  { clear Hb Ht Hr Hh. revert s0 Hs0.
    induction Hevs as [|e evs He _ IH]; intros s Hs; [done|].
    simpl. apply IH. apply step_safe_state_for; [done| |done].
    apply safe_for_O_emptyBoard. }
  split_and!; [done..|].
  intros w Hw. rewrite Hres in Hnot. unfold derive in Hnot. rewrite Hw in Hnot.
  simpl in Hnot. destruct (symbol w); [done|].
  rewrite bool_decide_eq_true_2 in Hnot by done. by destruct Hnot.
Qed.

Lemma computer_never_loses_moving_first_witness :
  result (run [AiTimer 0; Click 4] (step (Choose O) init)) ≠ Some RHuman
  ∧ result (run [AiTimer 0; Click 4] (step (Choose O) init))
    = (derive (board (run [AiTimer 0; Click 4] (step (Choose O) init))) O).2
  ∧ (∀ w, winnerInfo (board (run [AiTimer 0; Click 4] (step (Choose O) init))) = Some w
          → symbol w = X).
Proof.
  apply (computer_never_loses_moving_first (step (Choose O) init) [AiTimer 0; Click 4]).
  - unfold round_start. split_and!; reflexivity.
  - reflexivity.
  - unfold keeps_O. repeat constructor; discriminate.
Defined.

(** ** The theme *)

Section Theme.
Implicit Types (st : Storage) (id theme : string) (ts : string * Storage).

Lemma load_theme_known st stored : load_theme st = Some stored → known_theme stored = true.
Proof.
  unfold load_theme. destruct (blocked st); [discriminate|].
  destruct (item st) as [x|]; [|discriminate].
  destruct (negb (String.eqb x "") && known_theme x) eqn:E; [|discriminate].
  intros [= <-]. by apply andb_true_iff in E as [_ ?].
Qed.

(** What a session keeps true: the theme is one of [THEMES], and a
    storage that works holds it. *)
Lemma mount_theme_inv st :
  known_theme (mount_theme st).1 = true
  ∧ (mount_theme st).2
    = if blocked st then st else mkStorage false (Some (mount_theme st).1).
Proof.
  unfold mount_theme. destruct (load_theme st) as [stored|] eqn:E.
  - pose proof (load_theme_known _ _ E) as Hk.
    destruct (String.eqb_spec stored "cosmic") as [->|Hne]; simpl.
    + split; [done|]. unfold save_theme. by destruct (blocked st).
    + split; [done|]. unfold save_theme.
      destruct (blocked st) eqn:Hb; simpl; by rewrite ?Hb.
  - simpl. split; [done|]. unfold save_theme. by destruct (blocked st).
Qed.

Lemma select_theme_inv st0 id ts :
  known_theme id = true →
  known_theme ts.1 = true
  ∧ ts.2 = (if blocked st0 then st0 else mkStorage false (Some ts.1)) →
  known_theme (select_theme id ts).1 = true
  ∧ (select_theme id ts).2
    = if blocked st0 then st0 else mkStorage false (Some (select_theme id ts).1).
Proof.
  intros Hid [Hk Hst]. unfold select_theme.
  destruct (String.eqb_spec id ts.1) as [->|Hne]; [done|]. simpl.
  split; [done|]. rewrite Hst. unfold save_theme.
  destruct (blocked st0) eqn:Hb; simpl; by rewrite ?Hb.
Qed.

Lemma theme_session_inv st ids :
  Forall (fun id => known_theme id = true) ids →
  known_theme (theme_session st ids).1 = true
  ∧ (theme_session st ids).2
    = if blocked st then st else mkStorage false (Some (theme_session st ids).1).
Proof.
  intros Hids. unfold theme_session.
  pose proof (mount_theme_inv st) as Hinv. revert Hinv. generalize (mount_theme st).
  induction Hids as [|id ids Hid _ IH]; intros ts Hinv; [done|].
  simpl. apply IH. by apply select_theme_inv.
Qed.

(** Loading a storage that works and holds a known theme gives it back. *)
Lemma mount_theme_stored theme :
  known_theme theme = true →
  (mount_theme (mkStorage false (Some theme))).1 = theme.
Proof.
  intros Hk. unfold mount_theme, load_theme. simpl. rewrite Hk.
  destruct (String.eqb_spec theme "") as [->|_]; [discriminate|]. simpl.
  by destruct (String.eqb_spec theme "cosmic") as [->|_].
Qed.
End Theme.

(** X15: after a page load and any clicks on theme buttons, the theme is
    one of the three of [THEMES], whatever the storage held, and a
    storage that works holds exactly the current theme. *)
Theorem theme_is_known_and_stored (st : Storage) (ids : list string) :
  Forall (fun id => known_theme id = true) ids →
  (theme_session st ids).1 ∈ ["cosmic"; "western"; "disco"]
  ∧ (blocked st = false → item (theme_session st ids).2 = Some (theme_session st ids).1)
  ∧ (blocked st = true → (theme_session st ids).2 = st).
Proof.
  intros Hids. destruct (theme_session_inv st ids Hids) as [Hk Hst].
  split_and!.
  - unfold known_theme, THEMES in Hk. cbn [existsb fst] in Hk.
    destruct (String.eqb_spec "cosmic" (theme_session st ids).1) as [<-|_];
      [apply list_elem_of_here|].
    destruct (String.eqb_spec "western" (theme_session st ids).1) as [<-|_];
      [apply list_elem_of_further, list_elem_of_here|].
    destruct (String.eqb_spec "disco" (theme_session st ids).1) as [<-|_];
      [do 2 apply list_elem_of_further; apply list_elem_of_here|].
    discriminate Hk.
  - intros Hb. rewrite Hst, Hb. done.
  - intros Hb. rewrite Hst, Hb. done.
Qed.

Lemma theme_is_known_and_stored_witness :
  (theme_session (mkStorage false (Some "neon")) ["disco"; "western"]).1
    ∈ ["cosmic"; "western"; "disco"]
  ∧ (blocked (mkStorage false (Some "neon")) = false →
     item (theme_session (mkStorage false (Some "neon")) ["disco"; "western"]).2
     = Some (theme_session (mkStorage false (Some "neon")) ["disco"; "western"]).1)
  ∧ (blocked (mkStorage false (Some "neon")) = true →
     (theme_session (mkStorage false (Some "neon")) ["disco"; "western"]).2
     = mkStorage false (Some "neon")).
Proof.
  apply (theme_is_known_and_stored (mkStorage false (Some "neon")) ["disco"; "western"]).
  repeat constructor.
Defined.

(** X16: with a storage that works, the theme survives a reload: the
    page load that follows a session starts with the theme the session
    ended with. *)
Theorem theme_survives_reload (st : Storage) (ids : list string) :
  blocked st = false →
  Forall (fun id => known_theme id = true) ids →
  (mount_theme (theme_session st ids).2).1 = (theme_session st ids).1.
Proof.
  intros Hb Hids. destruct (theme_session_inv st ids Hids) as [Hk Hst].
  rewrite Hst, Hb. by apply mount_theme_stored.
Qed.

Lemma theme_survives_reload_witness :
  (mount_theme (theme_session (mkStorage false None) ["disco"]).2).1
  = (theme_session (mkStorage false None) ["disco"]).1.
Proof.
  apply (theme_survives_reload (mkStorage false None) ["disco"]).
  - reflexivity.
  - repeat constructor.
Defined.

(** X17: a page load with a blocked storage, with no stored item, or
    with a stored item that is no theme id starts with the theme
    ['cosmic']; a storage that works then holds ['cosmic'] instead of
    what it held, and a blocked one is left alone. *)
Theorem unusable_stored_theme_gives_cosmic (st : Storage) :
  blocked st = true ∨ item st = None
  ∨ (∃ stored, item st = Some stored ∧ known_theme stored = false) →
  mount_theme st
  = ("cosmic", if blocked st then st else mkStorage false (Some "cosmic")).
Proof.
  intros Hbad.
  assert (load_theme st = None) as Hl.
  { unfold load_theme. destruct (blocked st); [done|].
    destruct Hbad as [?|[->|(stored & -> & ->)]]; [done|done|].
    by rewrite andb_false_r. }
  unfold mount_theme. rewrite Hl. unfold save_theme. by destruct (blocked st).
Qed.

Lemma unusable_stored_theme_gives_cosmic_witness :
  mount_theme (mkStorage false (Some "neon"))
  = ("cosmic", mkStorage false (Some "cosmic")).
Proof.
  apply (unusable_stored_theme_gives_cosmic (mkStorage false (Some "neon"))).
  right. right. exists "neon". split; reflexivity.
Defined.

(** ** The status line *)

(** X18: under one theme, two states with the same status line are in
    the same phase (awaiting the human, awaiting the computer, or over
    with the same result), and when they await the human it is the same
    mark that is asked to move: no two situations share a message. *)
Theorem status_tells_the_phase (theme : string) (s1 s2 : State) :
  status theme s1 = status theme s2 →
  phase s1 = phase s2
  ∧ (phase s1 = AwaitingHuman → human s1 = human s2).
Proof.
  unfold status, phase.
  destruct (result s1) as [[| |]|], (result s2) as [[| |]|];
    destruct (String.eqb theme "western"), (String.eqb theme "disco");
    repeat case_bool_decide;
    destruct (human s1), (human s2); simpl; intros Hs;
    first [discriminate Hs | split; [reflexivity|intros; reflexivity]
          | split; [reflexivity|intros; discriminate]].
Qed.

Lemma status_tells_the_phase_witness :
  phase init = phase (step Restart init)
  ∧ (phase init = AwaitingHuman → human init = human (step Restart init)).
Proof.
  apply (status_tells_the_phase "cosmic" init (step Restart init)).
  reflexivity.
Defined.
